(** * Sword & Shield: the session and round-resolution engine

    A shallow embedding of the game server (the Node.js / Socket.io backend):
    the in-memory player directory, the phase state machine driven by
    [admin_action], the scoring of a round, the broadcast payload and the
    reaper of stale sessions, followed by the properties of the
    specification that were checked against it.

    Conventions of the embedding.
    - A JavaScript number is an exact rational ([Q]); the rounding error of
      IEEE doubles is not modelled.  Timestamps ([Date.now()]) and the round
      counter are integers ([Z]).
    - A JavaScript string is a [string]: a sequence of code units below 256.
    - The [players] Map is an association list in insertion order, which is
      the iteration order of a JavaScript Map.
    - A handler is a function from the state to the new state and the list of
      messages it emits, in order. *)

From Stdlib Require Import Ascii String QArith Qabs Qround Qminmax Lqa.
From stdpp Require Import gmap strings list fin_maps sorting.

Local Open Scope string_scope.
Local Open Scope Z_scope.

(** ** JavaScript built-ins used by the server *)

Module JS.

(** The double quote character, as a one-character string. *)
Definition dquote : string := String (ascii_of_nat 34) EmptyString.

(** White space and line terminators (those below 256): TAB, LF, VT, FF, CR,
    SP and NBSP.  [trim], [parseInt] and [parseFloat] strip them. *)
Definition is_whitespace (c : ascii) : bool :=
  let n := nat_of_ascii c in
  ((9 <=? n)%nat && (n <=? 13)%nat) || (n =? 32)%nat || (n =? 160)%nat.

(** [String.prototype.trimStart] *)
Fixpoint trimStart (s : string) : string :=
  match s with
  | EmptyString => EmptyString
  | String c s' => if is_whitespace c then trimStart s' else s
  end.

(** [String.prototype.trimEnd] *)
Fixpoint trimEnd (s : string) : string :=
  match s with
  | EmptyString => EmptyString
  | String c s' =>
      match trimEnd s' with
      | EmptyString => if is_whitespace c then EmptyString else String c EmptyString
      | t => String c t
      end
  end.

(** [String.prototype.trim] *)
Definition trim (s : string) : string := trimEnd (trimStart s).

(** [s.substring(0, n)]: the first [n] code units of [s] (all of [s] when it
    is shorter). *)
Fixpoint take_prefix (n : nat) (s : string) : string :=
  match n, s with
  | S n', String c s' => String c (take_prefix n' s')
  | _, _ => EmptyString
  end.

(** A value received from a client.  The handlers only ask whether a value
    is a string and what [ToString] makes of it, so any value that is not a
    string is kept as its [ToString] rendering (["5.7"] for the number 5.7,
    ["undefined"] for a missing field). *)
Inductive value : Type :=
| VString (s : string)
| VOther (rendering : string).

Definition ToString (v : value) : string :=
  match v with VString s => s | VOther r => r end.

(** [typeof v === 'string'] *)
Definition is_string (v : value) : bool :=
  match v with VString _ => true | VOther _ => false end.

(** Truthiness of the values above as far as the server needs it: a string
    is falsy exactly when it is empty.  For a value that is not a string
    the answer is never used alone: [!v || typeof v !== 'string'] is true
    for it either way. *)
Definition truthy (v : value) : bool :=
  match v with
  | VString s => negb (String.eqb s "")
  | VOther _ => true
  end.

(** [v === s] for a string [s]: strict equality never holds for a value of
    another type. *)
Definition strict_eq_string (v : value) (s : string) : bool :=
  match v with
  | VString t => String.eqb t s
  | VOther _ => false
  end.

(** *** Numbers *)

Definition digit_of (c : ascii) : option Z :=
  let n := nat_of_ascii c in
  if ((48 <=? n)%nat && (n <=? 57)%nat)%bool then Some (Z.of_nat n - 48) else None.

(** The longest prefix of decimal digits of [s]: its value, the number of
    digits read, and the rest of the string. *)
Fixpoint read_digits (acc : Z) (count : nat) (s : string) : Z * nat * string :=
  match s with
  | String c s' =>
      match digit_of c with
      | Some d => read_digits (10 * acc + d) (S count) s'
      | None => (acc, count, s)
      end
  | EmptyString => (acc, count, s)
  end.

(** An optional sign: [true] for a leading minus. *)
Definition read_sign (s : string) : bool * string :=
  match s with
  | String "-"%char s' => (true, s')
  | String "+"%char s' => (false, s')
  | _ => (false, s)
  end.

(** [parseInt(v, 10)]: [ToString], skip leading white space, an optional
    sign, then the longest run of decimal digits; [None] is NaN (no digit
    was read).  Whatever follows the digits is ignored. *)
Definition parseInt (v : value) : option Z :=
  let '(neg, s) := read_sign (trimStart (ToString v)) in
  let '(n, count, _) := read_digits 0 0 s in
  match count with
  | O => None
  | _ => Some (if neg then - n else n)
  end.

(** The result of [parseFloat]: NaN, an infinity, or a finite number. *)
Inductive number : Type :=
| NaN
| Infinity (negative : bool)
| Finite (q : Q).

Definition prefix_Infinity (s : string) : bool :=
  String.eqb (take_prefix 8 s) "Infinity".

(** The exponent part [e[+-]digits] of a decimal literal; it is read only
    when at least one digit follows. *)
Definition read_exponent (s : string) : Z :=
  match s with
  | String c s' =>
      if (Ascii.eqb c "e"%char || Ascii.eqb c "E"%char)%bool then
        let '(neg, s'') := read_sign s' in
        let '(e, count, _) := read_digits 0 0 s'' in
        match count with
        | O => 0
        | _ => if neg then - e else e
        end
      else 0
  | EmptyString => 0
  end.

(** [parseFloat(v)]: [ToString], skip leading white space, then the longest
    prefix that is a decimal literal: a sign, then [Infinity] or digits with
    an optional fraction and exponent. *)
Definition parseFloat (v : value) : number :=
  let '(neg, s) := read_sign (trimStart (ToString v)) in
  if prefix_Infinity s then Infinity neg
  else
    let '(ip, icount, rest) := read_digits 0 0 s in
    let '(fp, fcount, rest') :=
      match rest with
      | String "."%char r => read_digits 0 0 r
      | _ => (0, O, rest)
      end in
    match icount, fcount with
    | O, O => NaN
    | _, _ =>
        let mantissa := (inject_Z ip + inject_Z fp / inject_Z (10 ^ Z.of_nat fcount))%Q in
        let scaled := (mantissa * Qpower 10 (read_exponent rest'))%Q in
        Finite (if neg then - scaled else scaled)%Q
    end.

(** [Math.round]: the nearest integer, a tie going up. *)
Definition Math_round (q : Q) : Q := inject_Z (Qfloor (q + (1 # 2))%Q).

(** [Math.round(q * 100) / 100], the rounding of the broadcast payload. *)
Definition round2 (q : Q) : Q := (Math_round (q * 100) / 100)%Q.

(** [Array.prototype.sort(cmp)].  The sort is stable, and [cmp a b > 0] asks
    for [b] before [a]; it is modelled as the stable insertion sort, which
    every conforming sort agrees with when [cmp] is a consistent
    comparator. *)
Section Sort.
Context {A : Type} (cmp : A -> A -> Q).

Fixpoint sort_insert (a : A) (l : list A) : list A :=
  match l with
  | [] => [a]
  | b :: l' => if Qle_bool (cmp a b) 0 then a :: l else b :: sort_insert a l'
  end.

Definition sort (l : list A) : list A := foldr sort_insert [] l.
End Sort.

End JS.

(** ** The JavaScript Map, keyed by strings

    A Map iterates in insertion order; writing to a key that is present keeps
    its place, a new key goes last.  A value of the Map is an object: the
    code mutates it in place through the reference [get] returned, which is
    [update] here. *)

Module OMap.
Section Ops.
Context {V : Type}.

(** [m.get(k)] *)
Fixpoint get (k : string) (m : list (string * V)) : option V :=
  match m with
  | [] => None
  | (k', v) :: m' => if decide (k' = k) then Some v else get k m'
  end.

(** [m.set(k, v)] *)
Fixpoint set (k : string) (v : V) (m : list (string * V)) : list (string * V) :=
  match m with
  | [] => [(k, v)]
  | (k', v') :: m' => if decide (k' = k) then (k', v) :: m' else (k', v') :: set k v m'
  end.

(** [m.delete(k)] *)
Fixpoint delete (k : string) (m : list (string * V)) : list (string * V) :=
  match m with
  | [] => []
  | (k', v) :: m' => if decide (k' = k) then m' else (k', v) :: delete k m'
  end.

(** [const o = m.get(k); if (o) { mutate o }], with [f] the mutation *)
Fixpoint update (k : string) (f : V -> V) (m : list (string * V)) : list (string * V) :=
  match m with
  | [] => []
  | (k', v) :: m' => if decide (k' = k) then (k', f v) :: m' else (k', v) :: update k f m'
  end.

(** The mutation [f] of the object at position [i] of the iteration order (a
    reference handed out by a loop over the Map). *)
Definition update_at (i : nat) (f : V -> V) (m : list (string * V)) : list (string * V) :=
  alter (prod_map id f) i m.

(** [for (const [, v] of m) { mutate v }] *)
Definition update_all (f : V -> V) (m : list (string * V)) : list (string * V) :=
  prod_map id f <$> m.

Definition keys (m : list (string * V)) : list string := fst <$> m.
Definition values (m : list (string * V)) : list V := snd <$> m.
End Ops.
End OMap.

(** ** The game state *)

(** [{ x, z }], a player's submission of a round *)
Record Submission : Type := mkSubmission {
  sub_x : Z;
  sub_z : Q
}.

(** [PlayerData] *)
Record PlayerData : Type := mkPlayerData {
  socketId : option string;
  username : string;
  connected : bool;
  disconnectedAt : option Z;
  cumulativeScore : Q;
  currentRoundSubmission : option Submission
}.

(** The values of [gameState] *)
Inductive Phase : Type :=
| lobby
| round_input
| round_resolution
| final_standings.

#[export] Instance Phase_eq_dec : EqDecision Phase.
Proof. solve_decision. Defined.

(** The string that [gameState] holds in each phase *)
Definition phase_name (p : Phase) : string :=
  match p with
  | lobby => "lobby"
  | round_input => "round_input"
  | round_resolution => "round_resolution"
  | final_standings => "final_standings"
  end.

(** An entry of [lastRoundResults] *)
Record RoundResult : Type := mkRoundResult {
  r_username : string;
  r_x : Z;
  r_z : Q;
  r_k : nat;
  r_Y : Q;
  r_baseScore : Q;
  r_penalty : Q;
  r_roundScore : Q
}.

(** The module-level variables of the server.  [broadcastTimer] is [true]
    while a throttled broadcast is scheduled. *)
Record State : Type := mkState {
  players : list (string * PlayerData);
  gameState : Phase;
  currentRound : Z;
  lastRoundResults : list RoundResult;
  broadcastTimer : bool
}.

Definition initial_state : State :=
  {| players := []; gameState := lobby; currentRound := 1;
     lastRoundResults := []; broadcastTimer := false |}.

Definition set_players (ps : list (string * PlayerData)) (st : State) : State :=
  {| players := ps; gameState := gameState st; currentRound := currentRound st;
     lastRoundResults := lastRoundResults st; broadcastTimer := broadcastTimer st |}.

Definition set_gameState (p : Phase) (st : State) : State :=
  {| players := players st; gameState := p; currentRound := currentRound st;
     lastRoundResults := lastRoundResults st; broadcastTimer := broadcastTimer st |}.

Definition set_currentRound (n : Z) (st : State) : State :=
  {| players := players st; gameState := gameState st; currentRound := n;
     lastRoundResults := lastRoundResults st; broadcastTimer := broadcastTimer st |}.

Definition set_lastRoundResults (rs : list RoundResult) (st : State) : State :=
  {| players := players st; gameState := gameState st; currentRound := currentRound st;
     lastRoundResults := rs; broadcastTimer := broadcastTimer st |}.

Definition set_broadcastTimer (b : bool) (st : State) : State :=
  {| players := players st; gameState := gameState st; currentRound := currentRound st;
     lastRoundResults := lastRoundResults st; broadcastTimer := b |}.

(** Mutations of a player object *)

Definition set_submission (s : option Submission) (p : PlayerData) : PlayerData :=
  {| socketId := socketId p; username := username p; connected := connected p;
     disconnectedAt := disconnectedAt p; cumulativeScore := cumulativeScore p;
     currentRoundSubmission := s |}.

Definition set_score (q : Q) (p : PlayerData) : PlayerData :=
  {| socketId := socketId p; username := username p; connected := connected p;
     disconnectedAt := disconnectedAt p; cumulativeScore := q;
     currentRoundSubmission := currentRoundSubmission p |}.

(** [p.cumulativeScore += q] *)
Definition add_score (q : Q) (p : PlayerData) : PlayerData :=
  set_score (cumulativeScore p + q)%Q p.

(** [p.socketId = sock; p.connected = true; p.disconnectedAt = null] *)
Definition reattach (sock : string) (p : PlayerData) : PlayerData :=
  {| socketId := Some sock; username := username p; connected := true;
     disconnectedAt := None; cumulativeScore := cumulativeScore p;
     currentRoundSubmission := currentRoundSubmission p |}.

(** [p.connected = false; p.disconnectedAt = now; p.socketId = null] *)
Definition detach (now : Z) (p : PlayerData) : PlayerData :=
  {| socketId := None; username := username p; connected := false;
     disconnectedAt := Some now; cumulativeScore := cumulativeScore p;
     currentRoundSubmission := currentRoundSubmission p |}.

(** The entry [join_lobby] creates for a new name *)
Definition new_player (sock cleanName : string) : PlayerData :=
  {| socketId := Some sock; username := cleanName; connected := true;
     disconnectedAt := None; cumulativeScore := 0;
     currentRoundSubmission := None |}.

(** ** Messages sent by the server *)

(** An entry of the leaderboard of the payload *)
Record LeaderboardEntry : Type := mkLeaderboardEntry {
  lb_username : string;
  lb_cumulativeScore : Q;
  lb_connected : bool
}.

(** The payload of [game_state_update] *)
Record Payload : Type := mkPayload {
  p_phase : Phase;
  p_currentRound : Z;
  p_leaderboard : list LeaderboardEntry;
  p_playerCount : nat;
  p_submittedCount : nat;
  p_roundResults : list RoundResult
}.

(** What one socket is sent: [error_message { message }], or
    [submission_ack] (its text is made of the round number alone, which is
    kept instead) with the stored [x] and [z]. *)
Inductive ClientMessage : Type :=
| error_message (message : string)
| submission_ack (round : Z) (x : Z) (z : Q).

(** [socket.emit] to the socket of the handler, and [io.emit] to everyone *)
Inductive Emit : Type :=
| ToSocket (sock : string) (m : ClientMessage)
| ToAll (payload : Payload).

(** ** The server *)

(** [RECONNECT_GRACE_MS], ten minutes *)
Definition RECONNECT_GRACE_MS : Z := 10 * 60 * 1000.

(** A count as a number *)
Definition Qnat (n : nat) : Q := inject_Z (Z.of_nat n).

(** *** The broadcast payload *)

(** The leaderboard entry of a player: the score is rounded to two decimals *)
Definition leaderboard_entry (p : PlayerData) : LeaderboardEntry :=
  {| lb_username := username p;
     lb_cumulativeScore := JS.round2 (cumulativeScore p);
     lb_connected := connected p |}.

(** The comparator [(a, b) => b.cumulativeScore - a.cumulativeScore] *)
Definition by_score_desc (a b : LeaderboardEntry) : Q :=
  (lb_cumulativeScore b - lb_cumulativeScore a)%Q.

(** A round result as it is broadcast: [Y] and the scores rounded *)
Definition rounded_result (r : RoundResult) : RoundResult :=
  {| r_username := r_username r; r_x := r_x r; r_z := r_z r; r_k := r_k r;
     r_Y := JS.round2 (r_Y r);
     r_baseScore := JS.round2 (r_baseScore r);
     r_penalty := JS.round2 (r_penalty r);
     r_roundScore := JS.round2 (r_roundScore r) |}.

Definition has_submitted (p : PlayerData) : bool :=
  match currentRoundSubmission p with Some _ => true | None => false end.

Definition buildGameStatePayload (st : State) : Payload :=
  let leaderboard :=
    JS.sort by_score_desc (leaderboard_entry <$> OMap.values (players st)) in
  let connectedCount :=
    length (List.filter connected (OMap.values (players st))) in
  let submittedCount :=
    if decide (gameState st = round_input)
    then length (List.filter (fun p => connected p && has_submitted p)
                   (OMap.values (players st)))
    else O in
  {| p_phase := gameState st;
     p_currentRound := currentRound st;
     p_leaderboard := leaderboard;
     p_playerCount := connectedCount;
     p_submittedCount := submittedCount;
     p_roundResults :=
       if decide (gameState st = round_resolution \/ gameState st = final_standings)
       then rounded_result <$> lastRoundResults st
       else [] |}.

(** [broadcastThrottled]: schedule a broadcast unless one is scheduled *)
Definition broadcastThrottled (st : State) : State :=
  if broadcastTimer st then st else set_broadcastTimer true st.

(** The callback of the timer set by [broadcastThrottled]; a timer that was
    cleared never fires. *)
Definition timer_fired (st : State) : State * list Emit :=
  if broadcastTimer st
  then let st' := set_broadcastTimer false st in
       (st', [ToAll (buildGameStatePayload st')])
  else (st, []).

(** [broadcastImmediate]: cancel a scheduled broadcast and emit now *)
Definition broadcastImmediate (st : State) : State * list Emit :=
  let st' := if broadcastTimer st then set_broadcastTimer false st else st in
  (st', [ToAll (buildGameStatePayload st')]).

(** *** Resolving a round *)

(** The submitters of [resolveRound]: a copy [{ username, ...data }] of every
    player whose [currentRoundSubmission] is set, with that submission. *)
Definition submitters_of (ps : list (string * PlayerData)) : list (PlayerData * Submission) :=
  omap (fun e => (fun s => (e.2, s)) <$> currentRoundSubmission e.2) ps.

(** [freqMap[x] = (freqMap[x] || 0) + 1] *)
Definition freq_step (freqMap : gmap Z nat) (s : PlayerData * Submission) : gmap Z nat :=
  <[sub_x s.2 := (default O (freqMap !! sub_x s.2) + 1)%nat]> freqMap.

(** The body of [submitters.map(s => ...)] without the accumulation: the
    result record of one submitter.  [freqMap[x]] is always present at this
    point; the model reads an absent key as 0. *)
Definition score_of (N : nat) (freqMap : gmap Z nat) (s : PlayerData * Submission) : RoundResult :=
  let x := sub_x s.2 in
  let z := sub_z s.2 in
  let k := default O (freqMap !! x) in
  let Y := ((Qnat k / Qnat N) * 100)%Q in
  let baseScore := (inject_Z x * (1 - (Y / 100)))%Q in
  let penalty := (Qabs (Y - z) / 10)%Q in
  let roundScore := (baseScore - penalty)%Q in
  {| r_username := username s.1; r_x := x; r_z := z; r_k := k; r_Y := Y;
     r_baseScore := baseScore; r_penalty := penalty; r_roundScore := roundScore |}.

(** One iteration of [submitters.map]: the score is added to the player found
    under [s.username], and the result is appended. *)
Definition resolve_step (N : nat) (freqMap : gmap Z nat)
    (acc : list (string * PlayerData) * list RoundResult) (s : PlayerData * Submission)
    : list (string * PlayerData) * list RoundResult :=
  let r := score_of N freqMap s in
  (OMap.update (username s.1) (add_score (r_roundScore r)) acc.1, (acc.2 ++ [r])%list).

Definition resolveRound (st : State) : State :=
  let submitters := submitters_of (players st) in
  let N := length submitters in
  if (N =? 0)%nat then set_lastRoundResults [] st
  else
    let freqMap := foldl freq_step ∅ submitters in
    let acc := foldl (resolve_step N freqMap) (players st, []) submitters in
    set_lastRoundResults acc.2 (set_players acc.1 st).

(** *** Clearing and resetting *)

Definition clearSubmissions (st : State) : State :=
  set_players (OMap.update_all (set_submission None) (players st)) st.

Definition resetGame (st : State) : State :=
  {| players := OMap.update_all (fun p => set_submission None (set_score 0 p)) (players st);
     gameState := lobby;
     currentRound := 1;
     lastRoundResults := [];
     broadcastTimer := broadcastTimer st |}.

(** *** The reaper *)

(** The test of the sweep.  [data.disconnectedAt && ...] is false for [null]
    and for the timestamp 0. *)
Definition stale (now : Z) (data : PlayerData) : bool :=
  negb (connected data)
  && match disconnectedAt data with
     | Some t => negb (t =? 0) && (RECONNECT_GRACE_MS <? now - t)
     | None => false
     end.

(** One iteration of the sweep over [players.entries()] *)
Definition sweep_step (now : Z) (acc : list (string * PlayerData) * nat)
    (e : string * PlayerData) : list (string * PlayerData) * nat :=
  if stale now e.2 then (OMap.delete e.1 acc.1, S acc.2) else acc.

(** The callback of [setInterval(..., 60_000)], run at time [now].  Deleting
    the entry a Map iteration is at does not disturb the iteration. *)
Definition reaper (now : Z) (st : State) : State * list Emit :=
  let acc := foldl (sweep_step now) (players st, O) (players st) in
  let st' := set_players acc.1 st in
  if (0 <? acc.2)%nat then broadcastImmediate st' else (st', []).

(** *** The socket handlers *)

(** [findPlayerBySocketId]: the first player, in iteration order, whose
    [socketId] is the given one; the reference to the object is its position. *)
Definition findPlayerBySocketId (sock : string) (st : State) : option (nat * (string * PlayerData)) :=
  list_find (fun e => socketId e.2 = Some sock) (players st).

Definition reply (st : State) (sock : string) (message : string) : State * list Emit :=
  (st, [ToSocket sock (error_message message)]).

Definition join_lobby (sock : string) (username : JS.value) (st : State) : State * list Emit :=
  if negb (JS.truthy username) || negb (JS.is_string username)
  then reply st sock "A valid username is required."
  else
    let cleanName := JS.take_prefix 20 (JS.trim (JS.ToString username)) in
    broadcastImmediate
      match OMap.get cleanName (players st) with
      | Some _ => set_players (OMap.update cleanName (reattach sock) (players st)) st
      | None => set_players (OMap.set cleanName (new_player sock cleanName) (players st)) st
      end.

(** The checks on the parsed shield: [isNaN(z) || z < 0 || z > 100] holds of
    NaN, of both infinities and of a finite number outside the range. *)
Definition valid_shield (n : JS.number) : option Q :=
  match n with
  | JS.Finite q => if Qle_bool 0 q && Qle_bool q 100 then Some q else None
  | _ => None
  end.

Definition submit_choice (sock : string) (x z : JS.value) (st : State) : State * list Emit :=
  match findPlayerBySocketId sock st with
  | None => reply st sock "You must join the lobby first."
  | Some (i, _) =>
      if negb (bool_decide (gameState st = round_input))
      then reply st sock "Submissions are not open right now."
      else
        match JS.parseInt x with
        | None => reply st sock "Sword (x) must be an integer between 1 and 10."
        | Some parsedX =>
            if (parsedX <? 1) || (10 <? parsedX)
            then reply st sock "Sword (x) must be an integer between 1 and 10."
            else
              match valid_shield (JS.parseFloat z) with
              | None => reply st sock "Shield (z) must be a number between 0 and 100."
              | Some parsedZ =>
                  let submission := {| sub_x := parsedX; sub_z := parsedZ |} in
                  let st' :=
                    set_players
                      (OMap.update_at i (set_submission (Some submission)) (players st)) st in
                  (broadcastThrottled st',
                   [ToSocket sock (submission_ack (currentRound st) parsedX parsedZ)])
              end
        end
  end.

(** [`... phase "${gameState}".`] *)
Definition quoted_phase (st : State) : string :=
  JS.dquote ++ phase_name (gameState st) ++ JS.dquote ++ ".".

(** [disconnect], at time [now] *)
Definition disconnect (sock : string) (now : Z) (st : State) : State * list Emit :=
  broadcastImmediate
    match findPlayerBySocketId sock st with
    | Some (i, _) => set_players (OMap.update_at i (detach now) (players st)) st
    | None => st
    end.

(** The events the server reacts to *)
Inductive Event : Type :=
| EJoin (sock : string) (username : JS.value)
| ESubmit (sock : string) (x z : JS.value)
| EAdmin (sock : string) (action password : JS.value)
| EDisconnect (sock : string) (now : Z)
| EReaper (now : Z)
| ETimer.

Section Admin.
(** [ADMIN_PASSWORD], read from the environment when the process starts *)
Variable ADMIN_PASSWORD : string.

Definition admin_action (sock : string) (action password : JS.value) (st : State)
    : State * list Emit :=
  if negb (JS.strict_eq_string password ADMIN_PASSWORD)
  then reply st sock "Invalid admin password."
  else if JS.strict_eq_string action "start_round" then
    if negb (bool_decide (gameState st = lobby))
       && negb (bool_decide (gameState st = round_resolution))
    then reply st sock ("Cannot start round from phase " ++ quoted_phase st)
    else broadcastImmediate
           (set_lastRoundResults [] (set_gameState round_input (clearSubmissions st)))
  else if JS.strict_eq_string action "resolve_round" then
    if negb (bool_decide (gameState st = round_input))
    then reply st sock ("Cannot resolve from phase " ++ quoted_phase st)
    else broadcastImmediate (set_gameState round_resolution (resolveRound st))
  else if JS.strict_eq_string action "next_round" then
    if negb (bool_decide (gameState st = round_resolution))
    then reply st sock ("Cannot advance from phase " ++ quoted_phase st)
    else if 3 <=? currentRound st
    then broadcastImmediate (set_gameState final_standings st)
    else broadcastImmediate
           (set_lastRoundResults []
              (set_gameState round_input
                 (clearSubmissions (set_currentRound (currentRound st + 1) st))))
  else if JS.strict_eq_string action "reset_game" then
    broadcastImmediate (resetGame st)
  else
    reply st sock ("Unknown admin action: " ++ JS.dquote ++ JS.ToString action ++ JS.dquote ++ ".").

Definition handle (e : Event) (st : State) : State * list Emit :=
  match e with
  | EJoin sock username => join_lobby sock username st
  | ESubmit sock x z => submit_choice sock x z st
  | EAdmin sock action password => admin_action sock action password st
  | EDisconnect sock now => disconnect sock now st
  | EReaper now => reaper now st
  | ETimer => timer_fired st
  end.

(** The state after a sequence of events, from a given state *)
Definition run (es : list Event) (st : State) : State :=
  foldl (fun s e => (handle e s).1) st es.

(** The states the server can be in *)
Inductive reachable : State -> Prop :=
| reachable_init : reachable initial_state
| reachable_step st e : reachable st -> reachable (handle e st).1.

End Admin.

(** *** The status route *)

(** The answer of [GET /] *)
Record Status : Type := mkStatus {
  status_game : string;
  status_status : string;
  status_phase : Phase;
  status_round : Z;
  status_players : nat;
  status_totalRegistered : nat
}.

Definition status_route (st : State) : Status :=
  let connectedCount := length (List.filter connected (OMap.values (players st))) in
  {| status_game := "Sword & Shield";
     status_status := "online";
     status_phase := gameState st;
     status_round := currentRound st;
     status_players := connectedCount;
     status_totalRegistered := length (players st) |}.

(** * The client *)

Module Client.

(** [LandingScreen.handleSubmit]: the name typed into the form is handed to
    [onJoin] trimmed, and only when something is left of it.  [onJoin] is
    [App.handleJoin], which stores the name and emits [join_lobby] with it. *)
Definition handleSubmit (typed : string) : option string :=
  if negb (String.eqb (JS.trim typed) "") then Some (JS.trim typed) else None.

(** A bar of the distribution chart *)
Record Bar : Type := mkBar {
  sword : Z;
  count : nat;
  percentage : Q
}.

(** [yByX[r.x] = r.Y] for every result, in order *)
Definition yByX (roundResults : list RoundResult) : gmap Z Q :=
  foldl (fun m r => <[r_x r := r_Y r]> m) ∅ roundResults.

(** The [distribution] of [App]: for each sword 1..10 the number of results
    with that sword and the rounded [Y] of the last of them ([yByX[i] ?? 0]) *)
Definition distribution (roundResults : list RoundResult) : list Bar :=
  (fun i => {| sword := i;
               count := length (filter (fun r => r_x r = i) roundResults);
               percentage := JS.round2 (default 0%Q (yByX roundResults !! i)) |})
    <$> seqZ 1 10.

(** The frame of [useCountUp] drawn [elapsed] milliseconds after the first
    one, with the names of [tick].  [progress = Math.min(elapsed / durationMs, 1)] *)
Definition progress (durationMs elapsed : Q) : Q := Qmin (elapsed / durationMs) 1.

(** [eased = 1 - Math.pow(1 - progress, 3)] *)
Definition eased (durationMs elapsed : Q) : Q :=
  (1 - (1 - progress durationMs elapsed) ^ 3)%Q.

(** [progress < 1]: another frame is requested *)
Definition countUp_running (durationMs elapsed : Q) : bool :=
  negb (Qle_bool 1 (progress durationMs elapsed)).

End Client.

(** * Vocabulary of the properties *)

(** The four administrator actions of the transition table *)
Inductive AdminAction : Type :=
| start_round
| resolve_round
| next_round
| reset.

(** The string the server expects in the [action] field *)
Definition action_name (a : AdminAction) : string :=
  match a with
  | start_round => "start_round"
  | resolve_round => "resolve_round"
  | next_round => "next_round"
  | reset => "reset_game"
  end.

(** The column "legal from" of the transition table *)
Definition legal_from (a : AdminAction) (p : Phase) : bool :=
  match a, p with
  | start_round, (lobby | round_resolution) => true
  | resolve_round, round_input => true
  | next_round, round_resolution => true
  | reset, _ => true
  | _, _ => false
  end.

(** An authorized request for the action [a] *)
Definition authorized (pw sock : string) (a : AdminAction) (st : State) : State * list Emit :=
  admin_action pw sock (JS.VString (action_name a)) (JS.VString pw) st.

(** The directory entry of a player without its score and submission: the
    identity and the connection data *)
Definition same_identity (p p' : PlayerData) : Prop :=
  username p' = username p /\ socketId p' = socketId p /\
  connected p' = connected p /\ disconnectedAt p' = disconnectedAt p.

(** The text sent for an action the server does not know *)
Definition unknown_action_message (action : JS.value) : string :=
  "Unknown admin action: " ++ JS.dquote ++ JS.ToString action ++ JS.dquote ++ ".".

(** The pending submission of every player, in the order of the directory *)
Definition pending (st : State) : list (string * option Submission) :=
  (fun e => (e.1, currentRoundSubmission e.2)) <$> players st.

(** No player holds a submission *)
Definition all_cleared (st st' : State) : Prop :=
  pending st' = (fun k => (k, None)) <$> OMap.keys (players st).

(** Every key of the directory is the [username] of its entry, and no key
    occurs twice (a Map holds a key once). *)
Definition well_keyed (ps : list (string * PlayerData)) : Prop :=
  NoDup (OMap.keys ps) /\ Forall (fun e => username e.2 = e.1) ps.

(** The score of a round in the words of the specification.
    [k(x)]: the number of submitters who chose [x] *)
Definition chose (x : Z) (subs : list (PlayerData * Submission)) : nat :=
  length (filter (fun s => sub_x s.2 = x) subs).

(** [Y = (k / N) * 100] *)
Definition popularity (k N : nat) : Q := ((Qnat k / Qnat N) * 100)%Q.

(** [x * (1 - Y/100) - |Y - z| / 10] *)
Definition roundScore_formula (x : Z) (z Y : Q) : Q :=
  (inject_Z x * (1 - Y / 100) - Qabs (Y - z) / 10)%Q.

(** The round score of a submission among the submitters [subs] *)
Definition round_score (subs : list (PlayerData * Submission)) (s : Submission) : Q :=
  roundScore_formula (sub_x s) (sub_z s)
    (popularity (chose (sub_x s) subs) (length subs)).

(** The player after the round in the words of the specification, field by
    field: the score of a submitter is its score before plus the round score
    of its submission and nothing else of it changes; a player without a
    submission is unchanged. *)
Definition scored (subs : list (PlayerData * Submission)) (p : PlayerData) : PlayerData :=
  match currentRoundSubmission p with
  | Some s =>
      {| socketId := socketId p; username := username p; connected := connected p;
         disconnectedAt := disconnectedAt p;
         cumulativeScore := (cumulativeScore p + round_score subs s)%Q;
         currentRoundSubmission := currentRoundSubmission p |}
  | None => p
  end.

(** The accumulation alone, for any scoring function [g] *)
Definition accumulate (g : PlayerData * Submission -> Q)
    (ps : list (string * PlayerData)) (subs : list (PlayerData * Submission))
    : list (string * PlayerData) :=
  foldl (fun ps s => OMap.update (username s.1) (add_score (g s)) ps) ps subs.

(** [a] may stand before [b]: the score shown for [b] is not greater *)
Definition not_below (a b : LeaderboardEntry) : Prop :=
  (lb_cumulativeScore b <= lb_cumulativeScore a)%Q.

(** The entries of a list whose shown score is [q], in order *)
Definition with_score (q : Q) (l : list LeaderboardEntry) : list LeaderboardEntry :=
  List.filter (fun e => Qeq_bool (lb_cumulativeScore e) q) l.

(** The leaderboard before it is sorted: an entry per player, in the order of
    the directory *)
Definition unsorted_leaderboard (st : State) : list LeaderboardEntry :=
  leaderboard_entry <$> OMap.values (players st).

(** The sword the server accepts: [parseInt(x, 10)] is [n], between 1 and 10 *)
Definition choice_accepted (x : JS.value) (n : Z) : Prop :=
  JS.parseInt x = Some n /\ 1 <= n <= 10.

(** The shield the server accepts: [parseFloat(z)] is the finite number [q],
    between 0 and 100 *)
Definition prediction_accepted (z : JS.value) (q : Q) : Prop :=
  JS.parseFloat z = JS.Finite q /\ (0 <= q)%Q /\ (q <= 100)%Q.

(** The player object after [player.currentRoundSubmission = { x: n, z: q }] *)
Definition submitted (n : Z) (q : Q) (e : string * PlayerData) : string * PlayerData :=
  (e.1, set_submission (Some {| sub_x := n; sub_z := q |}) e.2).

(** [username.trim().substring(0, 20)] *)
Definition cleanName (raw : string) : string := JS.take_prefix 20 (JS.trim raw).

(** An entry of the directory: its key is its [username], of at most 20
    characters, and [disconnectedAt] is set exactly while it is offline *)
Definition entry_ok (e : string * PlayerData) : Prop :=
  username e.2 = e.1 /\ (String.length e.1 <= 20)%nat /\
  (connected e.2 = false <-> is_Some (disconnectedAt e.2)).

(** The directory as it should be: a Map (no key twice) of such entries *)
Definition directory_ok (ps : list (string * PlayerData)) : Prop :=
  NoDup (OMap.keys ps) /\ Forall entry_ok ps.

(** A mutation after which an entry is still as it should be *)
Definition keeps_entry (f : PlayerData -> PlayerData) : Prop :=
  forall k p, entry_ok (k, p) -> entry_ok (k, f p).


(** ** Vocabulary of the further properties *)

(** The socket an event comes from; the two timers come from none *)
Definition event_socket (e : Event) : option string :=
  match e with
  | EJoin sock _ | ESubmit sock _ _ | EAdmin sock _ _ | EDisconnect sock _ => Some sock
  | EReaper _ | ETimer => None
  end.

(** The state after a sequence of events and everything emitted on the way *)
Fixpoint run_trace (pw : string) (es : list Event) (st : State) : State * list Emit :=
  match es with
  | [] => (st, [])
  | e :: es' =>
      let r := handle pw e st in
      let r' := run_trace pw es' r.1 in
      (r'.1, (r.2 ++ r'.2)%list)
  end.

(** The [game_state_update] messages among the emitted ones *)
Definition broadcasts (out : list Emit) : list Payload :=
  omap (fun m => match m with ToAll payload => Some payload | ToSocket _ _ => None end) out.

Definition is_ack (m : Emit) : bool :=
  match m with ToSocket _ (submission_ack _ _ _) => true | _ => false end.

Definition is_submit (e : Event) : bool :=
  match e with ESubmit _ _ _ => true | _ => false end.

(** The ways a handler can end: an error to the caller with the state as it
    was; an immediate broadcast of some state; an acknowledgement to the
    caller with a throttled broadcast; or nothing at all *)
Inductive outcome (e : Event) (st : State) : State * list Emit -> Prop :=
| outcome_error sock message :
    event_socket e = Some sock ->
    outcome e st (st, [ToSocket sock (error_message message)])
| outcome_immediate st1 : outcome e st (broadcastImmediate st1)
| outcome_ack st1 sock round x z :
    event_socket e = Some sock ->
    outcome e st (broadcastThrottled st1, [ToSocket sock (submission_ack round x z)])
| outcome_quiet : outcome e st (st, []).

(** A stored submission is one the checks of [submit_choice] accept *)
Definition submission_in_range (s : Submission) : Prop :=
  1 <= sub_x s <= 10 /\ (0 <= sub_z s)%Q /\ (sub_z s <= 100)%Q.

Definition pending_in_range (e : string * PlayerData) : Prop :=
  forall s, currentRoundSubmission e.2 = Some s -> submission_in_range s.

Definition nothing_pending (e : string * PlayerData) : Prop :=
  currentRoundSubmission e.2 = None.

Definition result_in_range (r : RoundResult) : Prop :=
  1 <= r_x r <= 10 /\ (0 <= r_z r)%Q /\ (r_z r <= 100)%Q.

(** What holds of the round counter, the results and the submissions in
    every phase *)
Definition game_ok (st : State) : Prop :=
  1 <= currentRound st <= 3 /\
  (gameState st = lobby -> currentRound st = 1 /\ Forall nothing_pending (players st)) /\
  (gameState st = final_standings -> currentRound st = 3) /\
  (gameState st = lobby \/ gameState st = round_input -> lastRoundResults st = []) /\
  Forall pending_in_range (players st) /\
  Forall result_in_range (lastRoundResults st).

(** The phase and round before and after an event, as the code allows them
    to change *)
Inductive transition : Phase * Z -> Phase * Z -> Prop :=
| transition_none p n : transition (p, n) (p, n)
| transition_start p n : p = lobby \/ p = round_resolution ->
    transition (p, n) (round_input, n)
| transition_resolve n : transition (round_input, n) (round_resolution, n)
| transition_advance n : n < 3 -> transition (round_resolution, n) (round_input, n + 1)
| transition_finish n : 3 <= n -> transition (round_resolution, n) (final_standings, n)
| transition_reset p n : transition (p, n) (lobby, 1).

(** The cumulative score of every player, in the order of the directory *)
Definition scores (st : State) : list (string * Q) :=
  (fun e => (e.1, cumulativeScore e.2)) <$> players st.

Definition is_admin (e : Event) : bool :=
  match e with EAdmin _ _ _ => true | _ => false end.

(** Results with the same sword carry the same [Y], as the server's do *)
Definition same_sword_same_Y (results : list RoundResult) : Prop :=
  forall r r', r ∈ results -> r' ∈ results -> r_x r = r_x r' -> r_Y r = r_Y r'.

(** * Scenarios

    Runs of the server from its initial state, on which the properties above
    are instantiated and the statements of the specification that the code
    does not satisfy are refuted. *)

Definition secret : string := "changeme".

Definition admin (a : AdminAction) : Event :=
  EAdmin "admin" (JS.VString (action_name a)) (JS.VString secret).

(** Alice and Bob have joined and round 1 is open *)
Definition st_open : State :=
  run secret
    [EJoin "s1" (JS.VString "Alice"); EJoin "s2" (JS.VString "Bob"); admin start_round]
    initial_state.

(** Three players chose 5, 5 and 8; the round is still open *)
Definition st_closing : State :=
  run secret
    [EJoin "s1" (JS.VString "Alice"); EJoin "s2" (JS.VString "Bob");
     EJoin "s3" (JS.VString "Carol"); admin start_round;
     ESubmit "s1" (JS.VOther "5") (JS.VOther "60");
     ESubmit "s2" (JS.VOther "5") (JS.VOther "70");
     ESubmit "s3" (JS.VOther "8") (JS.VOther "30")]
    initial_state.

(** The same round, resolved *)
Definition st_resolved : State := (handle secret (admin resolve_round) st_closing).1.

(** Alice went offline at time 1000 *)
Definition st_offline : State :=
  run secret
    [EJoin "s1" (JS.VString "Alice"); EJoin "s2" (JS.VString "Bob"); EDisconnect "s1" 1000]
    initial_state.

(** Alice and Bob both chose 1; Alice predicted 99.98 and Bob 99.99, and the
    round is resolved *)
Definition st_near_tie : State :=
  run secret
    [EJoin "s1" (JS.VString "Alice"); EJoin "s2" (JS.VString "Bob"); admin start_round;
     ESubmit "s1" (JS.VOther "1") (JS.VOther "99.98");
     ESubmit "s2" (JS.VOther "1") (JS.VOther "99.99");
     admin resolve_round]
    initial_state.

(** * Properties *)

(** ** Basic facts *)

Lemma password_accepted (pw : string) : JS.strict_eq_string (JS.VString pw) pw = true.
Proof. apply String.eqb_refl. Qed.

Lemma update_all_keys {V : Type} (f : V -> V) (m : list (string * V)) :
  OMap.keys (OMap.update_all f m) = OMap.keys m.
Proof.
  unfold OMap.keys, OMap.update_all.
  rewrite <- list_fmap_compose. apply list_fmap_ext. by intros ? [k v].
Qed.

Lemma broadcastImmediate_players (st : State) :
  players (broadcastImmediate st).1 = players st.
Proof. unfold broadcastImmediate. by destruct (broadcastTimer st). Qed.

Lemma broadcastImmediate_gameState (st : State) :
  gameState (broadcastImmediate st).1 = gameState st.
Proof. unfold broadcastImmediate. by destruct (broadcastTimer st). Qed.

Lemma broadcastImmediate_currentRound (st : State) :
  currentRound (broadcastImmediate st).1 = currentRound st.
Proof. unfold broadcastImmediate. by destruct (broadcastTimer st). Qed.

Lemma broadcastImmediate_lastRoundResults (st : State) :
  lastRoundResults (broadcastImmediate st).1 = lastRoundResults st.
Proof. unfold broadcastImmediate. by destruct (broadcastTimer st). Qed.

Lemma broadcastImmediate_emits (st : State) :
  (broadcastImmediate st).2 = [ToAll (buildGameStatePayload (broadcastImmediate st).1)].
Proof. reflexivity. Qed.

(** ** Facts about the Map operations *)

Section MapFacts.
Context {V : Type}.
Implicit Types (m : list (string * V)) (k : string) (v : V) (f : V -> V).

Lemma get_None_keys k m : OMap.get k m = None <-> k ∉ OMap.keys m.
Proof.
  unfold OMap.keys. induction m as [|[k' v'] m IH]; simpl.
  - split; [|done]. intros _. apply not_elem_of_nil.
  - rewrite not_elem_of_cons. case_decide as Hk.
    + split; [done|]. intros [Hne _]. by destruct Hne.
    + rewrite IH. split; [|by intros [_ ?]]. intros Hm. split; [congruence|done].
Qed.

Lemma update_keys k f m : OMap.keys (OMap.update k f m) = OMap.keys m.
Proof.
  unfold OMap.keys. induction m as [|[k' v'] m IH]; simpl; [done|].
  case_decide; simpl; [done|]. by f_equal.
Qed.

Lemma get_update k f m : OMap.get k (OMap.update k f m) = f <$> OMap.get k m.
Proof.
  induction m as [|[k' v'] m IH]; simpl; [done|].
  case_decide; simpl; [by rewrite decide_True|]. by rewrite decide_False.
Qed.

Lemma get_update_ne k k' f m : k' <> k -> OMap.get k' (OMap.update k f m) = OMap.get k' m.
Proof.
  intros Hne. induction m as [|[k0 v0] m IH]; simpl; [done|].
  case_decide; simpl; subst.
  - by rewrite !decide_False by done.
  - case_decide; [done|]. apply IH.
Qed.

Lemma set_keys_new k v m : OMap.get k m = None -> OMap.set k v m = (m ++ [(k, v)])%list.
Proof.
  induction m as [|[k' v'] m IH]; simpl; [done|].
  case_decide; [done|]. intros H'. by rewrite IH.
Qed.

Lemma get_set k v m : OMap.get k (OMap.set k v m) = Some v.
Proof.
  induction m as [|[k' v'] m IH]; simpl.
  - by rewrite decide_True.
  - case_decide; simpl; [by rewrite decide_True|]. by rewrite decide_False.
Qed.

Lemma update_at_keys i f m : OMap.keys (OMap.update_at i f m) = OMap.keys m.
Proof.
  unfold OMap.keys, OMap.update_at. revert i.
  induction m as [|[k' v'] m IH]; intros [|i]; simpl; try done.
  f_equal. apply IH.
Qed.

Lemma delete_middle k v (pre l : list (string * V)) :
  k ∉ OMap.keys pre -> OMap.delete k (pre ++ (k, v) :: l) = (pre ++ l)%list.
Proof.
  unfold OMap.keys. induction pre as [|[k' v'] pre IH]; simpl.
  - intros _. by rewrite decide_True.
  - intros [Hne Hpre]%not_elem_of_cons. rewrite decide_False by congruence. by rewrite IH.
Qed.

Lemma get_filter (keep : string * V -> bool) k v m :
  NoDup (OMap.keys m) -> OMap.get k m = Some v ->
  OMap.get k (List.filter keep m) = if keep (k, v) then Some v else None.
Proof.
  unfold OMap.keys. induction m as [|[k' v'] m IH]; simpl; [done|].
  intros [Hk Hm]%NoDup_cons. case_decide; subst.
  - intros [= ->]. destruct (keep (k, v)); simpl; [by rewrite decide_True|].
    apply get_None_keys. intros Hin. apply Hk.
    unfold OMap.keys in Hin. apply list_elem_of_fmap in Hin as ([k0 v0] & -> & Hin).
    apply list_elem_of_In, filter_In in Hin as [Hin _].
    apply list_elem_of_In in Hin. by apply (list_elem_of_fmap_2 fst) in Hin.
  - intros Hget. destruct (keep (k', v')); simpl; [rewrite decide_False by done|];
      by apply IH.
Qed.
End MapFacts.

(** What an authorized request does, action by action *)

Lemma authorized_start_round (pw sock : string) (st : State) :
  authorized pw sock start_round st =
    if legal_from start_round (gameState st)
    then broadcastImmediate
           (set_lastRoundResults [] (set_gameState round_input (clearSubmissions st)))
    else reply st sock ("Cannot start round from phase " ++ quoted_phase st).
Proof.
  unfold authorized, admin_action. rewrite password_accepted. simpl.
  by destruct (gameState st).
Qed.

Lemma authorized_resolve_round (pw sock : string) (st : State) :
  authorized pw sock resolve_round st =
    if legal_from resolve_round (gameState st)
    then broadcastImmediate (set_gameState round_resolution (resolveRound st))
    else reply st sock ("Cannot resolve from phase " ++ quoted_phase st).
Proof.
  unfold authorized, admin_action. rewrite password_accepted. simpl.
  by destruct (gameState st).
Qed.

Lemma authorized_next_round (pw sock : string) (st : State) :
  authorized pw sock next_round st =
    if legal_from next_round (gameState st)
    then if 3 <=? currentRound st
         then broadcastImmediate (set_gameState final_standings st)
         else broadcastImmediate
                (set_lastRoundResults []
                   (set_gameState round_input
                      (clearSubmissions (set_currentRound (currentRound st + 1) st))))
    else reply st sock ("Cannot advance from phase " ++ quoted_phase st).
Proof.
  unfold authorized, admin_action. rewrite password_accepted. simpl.
  by destruct (gameState st).
Qed.

Lemma authorized_reset (pw sock : string) (st : State) :
  authorized pw sock reset st = broadcastImmediate (resetGame st).
Proof.
  unfold authorized, admin_action. by rewrite password_accepted.
Qed.

(** ** Reset (C3) *)

(** C3: an authorized reset, from any state and so from any of the four
    phases, yields phase lobby, round 1 and no results; the players are the
    same, in the same order, each with its identity and connection data
    unchanged, a score of 0 and no pending submission. *)
Theorem reset_returns_to_lobby (pw sock : string) (st : State) :
  let st' := (authorized pw sock reset st).1 in
  gameState st' = lobby /\
  currentRound st' = 1 /\
  lastRoundResults st' = [] /\
  OMap.keys (players st') = OMap.keys (players st) /\
  Forall2 (fun e e' => e'.1 = e.1 /\ same_identity e.2 e'.2 /\
                       cumulativeScore e'.2 = 0%Q /\
                       currentRoundSubmission e'.2 = None)
    (players st) (players st').
Proof.
  simpl. rewrite authorized_reset.
  rewrite broadcastImmediate_gameState, broadcastImmediate_currentRound,
    broadcastImmediate_lastRoundResults, broadcastImmediate_players.
  simpl. split_and!; try done.
  - apply update_all_keys.
  - unfold OMap.update_all. apply Forall2_fmap_r, Forall_Forall2_diag, Forall_forall.
    by intros [k p] _.
Qed.

(** ** Phase guards (C4) *)

(** C4: an authorized action requested from a phase that the table does not
    list for it is answered with one error message to the caller, which ends
    with the name of the current phase in quotes, and the state (phase,
    round, results, players, timer) is the one before the call; so a second
    resolve_round right after a first one is rejected and changes nothing. *)
Theorem illegal_phase_rejected (pw sock : string) (a : AdminAction) (st : State) :
  (legal_from a (gameState st) = false ->
   exists what,
     authorized pw sock a st
     = (st, [ToSocket sock (error_message (what ++ quoted_phase st))])) /\
  (gameState st = round_input ->
   let st1 := (authorized pw sock resolve_round st).1 in
   authorized pw sock resolve_round st1
   = (st1, [ToSocket sock
              (error_message ("Cannot resolve from phase " ++ JS.dquote
                              ++ "round_resolution" ++ JS.dquote ++ "."))])).
Proof.
  split.
  - intros Hillegal. destruct a.
    + exists "Cannot start round from phase ".
      by rewrite authorized_start_round, Hillegal.
    + exists "Cannot resolve from phase ".
      by rewrite authorized_resolve_round, Hillegal.
    + exists "Cannot advance from phase ".
      by rewrite authorized_next_round, Hillegal.
    + by destruct (gameState st).
  - intros Hphase st1.
    assert (gameState st1 = round_resolution) as Hnow.
    { subst st1. rewrite authorized_resolve_round, Hphase. cbv [legal_from].
      by rewrite broadcastImmediate_gameState. }
    rewrite authorized_resolve_round, Hnow. cbv [legal_from].
    unfold reply, quoted_phase. by rewrite Hnow.
Qed.

(** ** A wrong secret (C8) *)

Lemma unknown_action_reply (pw sock : string) (action : JS.value) (st : State) :
  JS.strict_eq_string action "start_round" = false ->
  JS.strict_eq_string action "resolve_round" = false ->
  JS.strict_eq_string action "next_round" = false ->
  JS.strict_eq_string action "reset_game" = false ->
  admin_action pw sock action (JS.VString pw) st
  = (st, [ToSocket sock (error_message (unknown_action_message action))]).
Proof.
  intros H1 H2 H3 H4. unfold admin_action.
  by rewrite password_accepted, H1, H2, H3, H4.
Qed.

(** C8, as the code has it: a request whose secret is not the administrator
    secret leaves the state untouched and is answered with one error message
    to the caller alone, whose text is the same for every action and every
    phase; that text is not the one sent for an unknown action. *)
Theorem wrong_password_rejected (pw sock : string) (action password : JS.value) (st : State) :
  JS.strict_eq_string password pw = false ->
  admin_action pw sock action password st
  = (st, [ToSocket sock (error_message "Invalid admin password.")]) /\
  forall action', unknown_action_message action' <> "Invalid admin password.".
Proof.
  intros Hwrong. split.
  - unfold admin_action. by rewrite Hwrong.
  - intros action'. unfold unknown_action_message. simpl. discriminate.
Qed.

(** ** Pending submissions (C2) *)

Lemma clearSubmissions_pending (st : State) : all_cleared st (clearSubmissions st).
Proof.
  unfold all_cleared, pending, clearSubmissions, OMap.keys, OMap.update_all. simpl.
  rewrite <- !list_fmap_compose. apply list_fmap_ext. by intros ? [k p].
Qed.

Lemma update_add_score_pending (k : string) (q : Q) (m : list (string * PlayerData)) :
  (fun e => (e.1, currentRoundSubmission e.2)) <$> OMap.update k (add_score q) m
  = (fun e => (e.1, currentRoundSubmission e.2)) <$> m.
Proof.
  induction m as [|[k' p] m IH]; [done|].
  simpl. case_decide; simpl; [done|]. f_equal. apply IH.
Qed.

Lemma resolve_fold_pending (N : nat) (fm : gmap Z nat) (subs : list (PlayerData * Submission))
    (acc : list (string * PlayerData) * list RoundResult) :
  (fun e => (e.1, currentRoundSubmission e.2)) <$> (foldl (resolve_step N fm) acc subs).1
  = (fun e => (e.1, currentRoundSubmission e.2)) <$> acc.1.
Proof.
  revert acc. induction subs as [|s subs IH]; intros acc; [done|].
  simpl. rewrite IH. apply update_add_score_pending.
Qed.

Lemma resolveRound_pending (st : State) : pending (resolveRound st) = pending st.
Proof.
  unfold pending, resolveRound. destruct (_ =? _)%nat; [done|].
  simpl. apply resolve_fold_pending.
Qed.

(** C2, as the code has it: the pending submissions are cleared when a round
    starts (start_round, and next_round when it opens another round) and by a
    reset; a successful resolve_round leaves the pending submission of every
    player as it was. *)
Theorem submissions_cleared_at_round_start (pw sock : string) (st : State) :
  (legal_from start_round (gameState st) = true ->
   all_cleared st (authorized pw sock start_round st).1) /\
  (legal_from next_round (gameState st) = true -> currentRound st < 3 ->
   all_cleared st (authorized pw sock next_round st).1) /\
  all_cleared st (authorized pw sock reset st).1 /\
  (legal_from resolve_round (gameState st) = true ->
   gameState (authorized pw sock resolve_round st).1 = round_resolution /\
   pending (authorized pw sock resolve_round st).1 = pending st).
Proof.
  split_and!.
  - intros Hlegal. rewrite authorized_start_round, Hlegal.
    unfold all_cleared, pending. rewrite broadcastImmediate_players.
    apply clearSubmissions_pending.
  - intros Hlegal Hround. rewrite authorized_next_round, Hlegal.
    destruct (Z.leb_spec 3 (currentRound st)) as [?|_]; [lia|].
    unfold all_cleared, pending. rewrite broadcastImmediate_players.
    apply (clearSubmissions_pending (set_currentRound (currentRound st + 1) st)).
  - rewrite authorized_reset.
    unfold all_cleared, pending. rewrite broadcastImmediate_players.
    unfold resetGame, OMap.keys, OMap.update_all. simpl.
    rewrite <- !list_fmap_compose. apply list_fmap_ext. by intros ? [k p].
  - intros Hlegal. rewrite authorized_resolve_round, Hlegal.
    rewrite broadcastImmediate_gameState. split; [done|].
    unfold pending. rewrite broadcastImmediate_players.
    apply resolveRound_pending.
Qed.

(** ** Scoring a round (C1) *)

Lemma freqMap_counts (subs : list (PlayerData * Submission)) (m : gmap Z nat) (x : Z) :
  default O (foldl freq_step m subs !! x) = (default O (m !! x) + chose x subs)%nat.
Proof.
  revert m. induction subs as [|s subs IH]; intros m.
  - unfold chose. simpl. lia.
  - simpl. rewrite IH. unfold freq_step, chose.
    rewrite filter_cons. destruct (decide (sub_x s.2 = x)) as [->|Hne].
    + rewrite lookup_insert_eq. simpl. lia.
    + by rewrite lookup_insert_ne.
Qed.

Lemma score_of_round_score (subs : list (PlayerData * Submission)) (s : PlayerData * Submission) :
  r_roundScore (score_of (length subs) (foldl freq_step ∅ subs) s) = round_score subs s.2.
Proof.
  unfold score_of, round_score, roundScore_formula, popularity. simpl.
  by rewrite freqMap_counts, lookup_empty.
Qed.

Lemma resolve_fold_results (N : nat) (fm : gmap Z nat) (subs : list (PlayerData * Submission))
    (acc : list (string * PlayerData) * list RoundResult) :
  (foldl (resolve_step N fm) acc subs).2 = (acc.2 ++ (score_of N fm <$> subs))%list.
Proof.
  revert acc. induction subs as [|s subs IH]; intros acc.
  - simpl. by rewrite app_nil_r.
  - simpl. rewrite IH. simpl. by rewrite <- app_assoc.
Qed.

Lemma resolve_fold_players (N : nat) (fm : gmap Z nat) (subs : list (PlayerData * Submission))
    (acc : list (string * PlayerData) * list RoundResult) :
  (foldl (resolve_step N fm) acc subs).1
  = accumulate (fun s => r_roundScore (score_of N fm s)) acc.1 subs.
Proof.
  revert acc. induction subs as [|s subs IH]; intros acc; [done|].
  simpl. by rewrite IH.
Qed.

Lemma submitters_of_cons (e : string * PlayerData) (ps : list (string * PlayerData)) :
  submitters_of (e :: ps)
  = match currentRoundSubmission e.2 with
    | Some s => (e.2, s) :: submitters_of ps
    | None => submitters_of ps
    end.
Proof. unfold submitters_of. simpl. by destruct (currentRoundSubmission e.2). Qed.

Lemma submitters_of_username (ps : list (string * PlayerData)) (s : PlayerData * Submission) :
  Forall (fun e => username e.2 = e.1) ps ->
  s ∈ submitters_of ps -> username s.1 ∈ OMap.keys ps.
Proof.
  intros Hkeys (e & He & Hs)%list_elem_of_omap.
  destruct (currentRoundSubmission e.2); simplify_eq/=.
  pose proof (proj1 (Forall_forall _ _) Hkeys e He) as Hu. simpl in Hu.
  rewrite Hu. unfold OMap.keys. by apply list_elem_of_fmap_2.
Qed.

Lemma accumulate_skips (g : PlayerData * Submission -> Q) (k : string) (p : PlayerData)
    (ps : list (string * PlayerData)) (subs : list (PlayerData * Submission)) :
  Forall (fun s => username s.1 <> k) subs ->
  accumulate g ((k, p) :: ps) subs = (k, p) :: accumulate g ps subs.
Proof.
  revert ps. induction subs as [|s subs IH]; intros ps Hne; [done|].
  apply Forall_cons in Hne as [Hs Hne]. unfold accumulate in *. simpl.
  case_decide; [congruence|]. by apply IH.
Qed.

Lemma accumulate_submitters (g : PlayerData * Submission -> Q) (ps : list (string * PlayerData)) :
  well_keyed ps ->
  accumulate g ps (submitters_of ps)
  = (fun e => (e.1, match currentRoundSubmission e.2 with
                    | Some s => add_score (g (e.2, s)) e.2
                    | None => e.2
                    end)) <$> ps.
Proof.
  intros [Hnodup Hkeys]. induction ps as [|[k p] ps IH]; [done|].
  apply NoDup_cons in Hnodup as [Hk Hnodup]. apply Forall_cons in Hkeys as [Hp Hkeys].
  simpl in Hp. rewrite submitters_of_cons. simpl.
  assert (Forall (fun s : PlayerData * Submission => username s.1 <> k) (submitters_of ps))
    as Hothers.
  { apply Forall_forall. intros s Hs Heq. apply Hk. rewrite <- Heq.
    by apply submitters_of_username. }
  destruct (currentRoundSubmission p) as [s|] eqn:Hsub.
  - unfold accumulate at 1. simpl. rewrite Hp, decide_True by done.
    fold (accumulate g ((k, add_score (g (p, s)) p) :: ps) (submitters_of ps)).
    rewrite accumulate_skips by done. by rewrite IH.
  - rewrite accumulate_skips by done. by rewrite IH.
Qed.

Lemma no_submitters (ps : list (string * PlayerData)) :
  length (submitters_of ps) = O -> Forall (fun e => currentRoundSubmission e.2 = None) ps.
Proof.
  induction ps as [|e ps IH]; [by constructor|].
  rewrite submitters_of_cons.
  destruct (currentRoundSubmission e.2) eqn:Hsub; [done|].
  intros Hnone. constructor; [done|by apply IH].
Qed.

Lemma scored_without_submission (subs : list (PlayerData * Submission))
    (ps : list (string * PlayerData)) :
  Forall (fun e => currentRoundSubmission e.2 = None) ps ->
  (fun e => (e.1, scored subs e.2)) <$> ps = ps.
Proof.
  induction 1 as [|[k p] ps Hp Hnone IH]; [done|].
  simpl in Hp. rewrite fmap_cons, IH. unfold scored. cbn [fst snd]. by rewrite Hp.
Qed.

Lemma resolveRound_players (st : State) :
  well_keyed (players st) ->
  players (resolveRound st)
  = (fun e => (e.1, scored (submitters_of (players st)) e.2)) <$> players st.
Proof.
  intros Hwf. unfold resolveRound.
  destruct (Nat.eqb_spec (length (submitters_of (players st))) 0) as [Hzero|Hpos].
  - cbn [players set_lastRoundResults].
    by rewrite scored_without_submission by (by apply no_submitters).
  - cbn [players set_lastRoundResults set_players].
    rewrite resolve_fold_players. cbn [fst].
    rewrite accumulate_submitters by done.
    apply list_fmap_ext. intros _ [k p] _. unfold scored. cbn [fst snd].
    destruct (currentRoundSubmission p) as [s|] eqn:Hsub; [|done].
    rewrite score_of_round_score. unfold add_score, set_score. cbn [snd].
    by rewrite Hsub.
Qed.

(** C1: when the directory is well keyed, resolving a round with at least
    one submitter produces one result per submitter, in order, whose
    roundScore is x*(1 - Y/100) - |Y - z|/10 with Y = (k(x)/N)*100; every
    player keeps its place, identity and submission; the cumulativeScore of a
    submitter after the round is its cumulativeScore before plus that
    roundScore (added once), and the cumulativeScore of a player without a
    submission is unchanged; with no submitter the results are empty and the
    players are unchanged.  Phase, round and timer are not touched. *)
Theorem resolveRound_scores (st : State) :
  well_keyed (players st) ->
  let subs := submitters_of (players st) in
  let st' := resolveRound st in
  (length subs = O -> lastRoundResults st' = [] /\ players st' = players st) /\
  ((1 <= length subs)%nat ->
     (fun r => (r_username r, r_x r, r_z r, r_roundScore r)) <$> lastRoundResults st'
     = (fun s => (username s.1, sub_x s.2, sub_z s.2, round_score subs s.2)) <$> subs /\
     players st' = (fun e => (e.1, scored subs e.2)) <$> players st) /\
  length (players st') = length (players st) /\
  (forall i name p,
     players st !! i = Some (name, p) ->
     exists p',
       players st' !! i = Some (name, p') /\
       same_identity p p' /\
       currentRoundSubmission p' = currentRoundSubmission p /\
       cumulativeScore p'
       = match currentRoundSubmission p with
         | Some s => (cumulativeScore p + round_score subs s)%Q
         | None => cumulativeScore p
         end) /\
  gameState st' = gameState st /\ currentRound st' = currentRound st /\
  broadcastTimer st' = broadcastTimer st.
Proof.
  intros Hwf subs st'. pose proof (resolveRound_players st Hwf) as Hplayers.
  fold subs st' in Hplayers.
  assert (gameState st' = gameState st /\ currentRound st' = currentRound st /\
          broadcastTimer st' = broadcastTimer st) as Hrest.
  { subst st'. unfold resolveRound. by destruct (_ =? _)%nat. }
  split_and!; try apply Hrest.
  - intros Hzero. subst st'. unfold resolveRound. fold subs.
    by rewrite (proj2 (Nat.eqb_eq _ _) Hzero).
  - intros Hpos. split; [|exact Hplayers].
    subst st'. unfold resolveRound. fold subs.
    destruct (Nat.eqb_spec (length subs) 0) as [Hzero|_]; [lia|].
    cbn [lastRoundResults set_lastRoundResults].
    rewrite resolve_fold_results. cbn [snd app].
    rewrite <- list_fmap_compose. apply list_fmap_ext. intros _ s _.
    unfold compose. rewrite <- score_of_round_score. reflexivity.
  - rewrite Hplayers. apply length_fmap.
  - intros i name p Hi. rewrite Hplayers, list_lookup_fmap, Hi.
    cbn [fmap option_fmap option_map fst snd].
    eexists. split; [reflexivity|]. unfold scored, same_identity.
    destruct (currentRoundSubmission p) eqn:Hsub; cbn; by split_and!.
Qed.

(** ** The reaper (C7) *)

Lemma sweep_fold (now : Z) (l pre : list (string * PlayerData)) (n : nat) :
  NoDup (OMap.keys (pre ++ l)) ->
  foldl (sweep_step now) ((pre ++ l)%list, n) l
  = ((pre ++ List.filter (fun e => negb (stale now e.2)) l)%list,
     (n + length (List.filter (fun e => stale now e.2) l))%nat).
Proof.
  revert pre n. induction l as [|[k p] l IH]; intros pre n Hnodup.
  - simpl. by rewrite Nat.add_0_r.
  - simpl. unfold sweep_step at 2. simpl.
    assert ((k ∉ OMap.keys pre) /\ NoDup (OMap.keys (pre ++ l))) as [Hk Hrest].
    { unfold OMap.keys in *. rewrite fmap_app in *. simpl in Hnodup.
      apply NoDup_app in Hnodup as (Hpre & Hdisj & [Hkl Hl]%NoDup_cons).
      split.
      - intros Hin. apply (Hdisj _ Hin). apply list_elem_of_here.
      - apply NoDup_app. split_and!; try done.
        intros x Hx Hxl. apply (Hdisj _ Hx). by apply list_elem_of_further. }
    destruct (stale now p).
    + rewrite delete_middle by done. rewrite IH by done. simpl.
      f_equal. lia.
    + simpl. replace (pre ++ ((k, p) :: l))%list with ((pre ++ [(k, p)]) ++ l)%list
        by (by rewrite <- app_assoc).
      rewrite IH by (by rewrite <- app_assoc).
      by rewrite <- app_assoc.
Qed.

Lemma reaper_players (now : Z) (st : State) :
  NoDup (OMap.keys (players st)) ->
  players (reaper now st).1 = List.filter (fun e => negb (stale now e.2)) (players st).
Proof.
  intros Hnodup. unfold reaper.
  pose proof (sweep_fold now (players st) [] O Hnodup) as Hsweep.
  simpl in Hsweep. rewrite Hsweep. simpl.
  destruct (_ <? _)%nat; [|done]. by rewrite broadcastImmediate_players.
Qed.

Lemma reaper_emits (now : Z) (st : State) :
  NoDup (OMap.keys (players st)) ->
  (reaper now st).2
  = if decide (length (players (reaper now st).1) < length (players st))%nat
    then [ToAll (buildGameStatePayload (reaper now st).1)] else [].
Proof.
  intros Hnodup. rewrite reaper_players by done. unfold reaper.
  pose proof (sweep_fold now (players st) [] O Hnodup) as Hsweep.
  simpl in Hsweep. rewrite Hsweep. simpl.
  pose proof (List.filter_length (fun e : string * PlayerData => stale now e.2) (players st))
    as Hlen.
  destruct (Nat.ltb_spec 0 (length (List.filter (fun e : string * PlayerData => stale now e.2)
                                      (players st)))) as [Hsome|Hnone].
  - rewrite decide_True by lia. by rewrite broadcastImmediate_emits.
  - rewrite decide_False by lia. done.
Qed.

(** C7: a sweep at time [now] over a directory (a Map: no key twice)
    removes an offline player, whose [disconnectedAt] is the time [t] of the
    disconnection, exactly when [now - t] is strictly greater than the grace
    duration, so not at exactly the grace duration; it keeps every connected
    player; and when a player was removed it emits a broadcast at once, of
    the state after the sweep. *)
Theorem reaper_purges_past_grace (now : Z) (st : State) :
  NoDup (OMap.keys (players st)) ->
  let st' := (reaper now st).1 in
  (forall name p t,
     OMap.get name (players st) = Some p ->
     connected p = false -> disconnectedAt p = Some t -> t <> 0 ->
     (RECONNECT_GRACE_MS < now - t -> OMap.get name (players st') = None) /\
     (now - t <= RECONNECT_GRACE_MS -> OMap.get name (players st') = Some p)) /\
  (forall name p,
     OMap.get name (players st) = Some p -> connected p = true ->
     OMap.get name (players st') = Some p) /\
  ((length (players st') < length (players st))%nat ->
   (reaper now st).2 = [ToAll (buildGameStatePayload st')]).
Proof.
  intros Hnodup st'. subst st'. split_and!.
  - intros name p t Hget Hoff Hat Ht.
    rewrite reaper_players by done.
    rewrite (get_filter _ name p) by done. unfold stale. simpl.
    rewrite Hoff, Hat. simpl.
    destruct (Z.eqb_spec t 0) as [?|_]; [done|]. simpl.
    destruct (Z.ltb_spec RECONNECT_GRACE_MS (now - t)); simpl; split; intros; try done; lia.
  - intros name p Hget Hon.
    rewrite reaper_players by done.
    rewrite (get_filter _ name p) by done. unfold stale. simpl. by rewrite Hon.
  - intros Hless. rewrite reaper_emits by done. by rewrite decide_True.
Qed.

(** ** The leaderboard (C9) *)

Lemma by_score_desc_le (a b : LeaderboardEntry) :
  Qle_bool (by_score_desc a b) 0 = true <-> not_below a b.
Proof.
  rewrite Qle_bool_iff. unfold by_score_desc, not_below. split; intros; lra.
Qed.

Lemma sort_insert_perm (a : LeaderboardEntry) (l : list LeaderboardEntry) :
  JS.sort_insert by_score_desc a l ≡ₚ a :: l.
Proof.
  induction l as [|b l IH]; simpl; [done|].
  destruct (Qle_bool _ _); [done|]. rewrite IH. apply Permutation_swap.
Qed.

Lemma sort_perm (l : list LeaderboardEntry) : JS.sort by_score_desc l ≡ₚ l.
Proof.
  induction l as [|a l IH]; simpl; [done|].
  rewrite sort_insert_perm. by rewrite IH.
Qed.

Lemma sort_insert_sorted (a : LeaderboardEntry) (l : list LeaderboardEntry) :
  StronglySorted not_below l -> StronglySorted not_below (JS.sort_insert by_score_desc a l).
Proof.
  induction l as [|b l IH]; simpl; intros Hsorted.
  - by repeat constructor.
  - apply StronglySorted_inv in Hsorted as [Hl Hb].
    destruct (Qle_bool (by_score_desc a b) 0) eqn:Hcmp.
    + apply by_score_desc_le in Hcmp. constructor; [by constructor|].
      constructor; [done|]. eapply Forall_impl; [exact Hb|].
      unfold not_below in *. intros c Hc. simpl in Hc. lra.
    + assert (not_below b a) as Hba.
      { destruct (Qlt_le_dec (lb_cumulativeScore a) (lb_cumulativeScore b)) as [Hlt|Hle].
        - unfold not_below. lra.
        - apply by_score_desc_le in Hle. congruence. }
      constructor; [by apply IH|].
      rewrite sort_insert_perm. by constructor.
Qed.

Lemma sort_sorted (l : list LeaderboardEntry) :
  StronglySorted not_below (JS.sort by_score_desc l).
Proof.
  induction l as [|a l IH]; simpl; [constructor|]. by apply sort_insert_sorted.
Qed.

Lemma sort_insert_stable (q : Q) (a : LeaderboardEntry) (l : list LeaderboardEntry) :
  with_score q (JS.sort_insert by_score_desc a l) = with_score q (a :: l).
Proof.
  unfold with_score. induction l as [|b l IH]; [done|].
  cbn [JS.sort_insert]. destruct (Qle_bool (by_score_desc a b) 0) eqn:Hcmp; [done|].
  cbn [List.filter] in *. rewrite IH.
  destruct (Qeq_bool (lb_cumulativeScore a) q) eqn:Ha; [|done].
  destruct (Qeq_bool (lb_cumulativeScore b) q) eqn:Hb; [|done].
  apply Qeq_bool_iff in Ha, Hb.
  assert (not_below a b) as Hab by (unfold not_below; lra).
  apply by_score_desc_le in Hab. congruence.
Qed.

Lemma sort_stable (q : Q) (l : list LeaderboardEntry) :
  with_score q (JS.sort by_score_desc l) = with_score q l.
Proof.
  induction l as [|a l IH]; [done|].
  cbn [JS.sort foldr]. rewrite sort_insert_stable.
  unfold with_score in *. cbn [List.filter]. fold (JS.sort by_score_desc l).
  by rewrite IH.
Qed.

Lemma StronglySorted_lookup {A : Type} (R : A -> A -> Prop) (l : list A) (i j : nat) (x y : A) :
  StronglySorted R l -> (i < j)%nat -> l !! i = Some x -> l !! j = Some y -> R x y.
Proof.
  intros Hsorted. revert i j. induction Hsorted as [|a l Hl IH Ha]; intros i j Hij Hi Hj.
  - by rewrite lookup_nil in Hi.
  - destruct j as [|j]; [lia|]. destruct i as [|i]; simpl in *.
    + simplify_eq. rewrite Forall_forall in Ha. apply Ha.
      by eapply list_elem_of_lookup_2.
    + apply (IH i j); [lia|done..].
Qed.

(** C9, as the code has it: the leaderboard of the payload has one entry per
    known player, connected or not; the score of an entry is the player's
    cumulativeScore rounded to two decimals, and the sequence is sorted
    descending by that rounded score, entries with the same shown score
    staying in directory (insertion) order; so of two entries the one with
    the strictly greater shown score comes first. *)
Theorem leaderboard_sorted_by_shown_score (st : State) :
  let lb := p_leaderboard (buildGameStatePayload st) in
  lb ≡ₚ unsorted_leaderboard st /\
  StronglySorted not_below lb /\
  (forall q, with_score q lb = with_score q (unsorted_leaderboard st)) /\
  (forall i j a b,
     lb !! i = Some a -> lb !! j = Some b ->
     (lb_cumulativeScore b < lb_cumulativeScore a)%Q -> (i < j)%nat).
Proof.
  simpl. fold (unsorted_leaderboard st). split_and!.
  - apply sort_perm.
  - apply sort_sorted.
  - intros q. apply sort_stable.
  - intros i j a b Hi Hj Hlt.
    destruct (Nat.lt_trichotomy i j) as [?|[->|Hji]]; [done|..].
    + simplify_eq. lra.
    + pose proof (StronglySorted_lookup _ _ _ _ _ _ (sort_sorted _) Hji Hj Hi) as Hle.
      unfold not_below in Hle. lra.
Qed.

(** ** Submissions (C5) *)

Lemma valid_shield_accepted (z : JS.value) (q : Q) :
  valid_shield (JS.parseFloat z) = Some q <-> prediction_accepted z q.
Proof.
  unfold prediction_accepted, valid_shield.
  destruct (JS.parseFloat z) as [| |q']; [split; [done|by intros [? _]]..|].
  destruct (Qle_bool 0 q') eqn:H0; destruct (Qle_bool q' 100) eqn:H100; simpl.
  - apply Qle_bool_iff in H0, H100.
    split; [by intros [= ->]|by intros ([= ->] & _)].
  - split; [done|]. intros ([= ->] & _ & H'). apply Qle_bool_iff in H'. congruence.
  - split; [done|]. intros ([= ->] & H' & _). apply Qle_bool_iff in H'. congruence.
  - split; [done|]. intros ([= ->] & H' & _). apply Qle_bool_iff in H'. congruence.
Qed.

Lemma update_at_insert (i : nat) (f : PlayerData -> PlayerData)
    (m : list (string * PlayerData)) (e : string * PlayerData) :
  m !! i = Some e -> OMap.update_at i f m = <[i := (e.1, f e.2)]> m.
Proof.
  unfold OMap.update_at. revert i. induction m as [|e' m IH]; intros [|i] Hi; try done.
  - simpl in Hi. simplify_eq. by destruct e.
  - simpl in *. f_equal. by apply IH.
Qed.


Lemma submit_choice_stores (sock : string) (x z : JS.value) (st : State)
    (i : nat) (e : string * PlayerData) (n : Z) (q : Q) :
  findPlayerBySocketId sock st = Some (i, e) -> gameState st = round_input ->
  choice_accepted x n -> prediction_accepted z q ->
  submit_choice sock x z st
  = (broadcastThrottled (set_players (<[i := submitted n q e]> (players st)) st),
     [ToSocket sock (submission_ack (currentRound st) n q)]).
Proof.
  intros Hfind Hphase [Hx Hn] Hz%valid_shield_accepted.
  unfold submit_choice. rewrite Hfind, Hphase, Hx, Hz. simpl.
  destruct (Z.ltb_spec n 1); [lia|]. destruct (Z.ltb_spec 10 n); [lia|]. simpl.
  apply list_find_Some in Hfind as (Hi & _).
  by rewrite (update_at_insert i _ _ e).
Qed.


Lemma broadcastThrottled_fields (st : State) :
  players (broadcastThrottled st) = players st /\
  gameState (broadcastThrottled st) = gameState st /\
  currentRound (broadcastThrottled st) = currentRound st /\
  lastRoundResults (broadcastThrottled st) = lastRoundResults st.
Proof. unfold broadcastThrottled. by destruct (broadcastTimer st). Qed.


(** ** Joining (C6, C10) *)

Lemma take_prefix_length (n : nat) (s : string) : (String.length (JS.take_prefix n s) <= n)%nat.
Proof.
  revert s. induction n as [|n IH]; intros [|c s]; simpl; try lia.
  specialize (IH s). lia.
Qed.

Lemma cleanName_length (raw : string) : (String.length (cleanName raw) <= 20)%nat.
Proof. apply take_prefix_length. Qed.

Lemma join_lobby_rejects_empty (sock : string) (st : State) :
  join_lobby sock (JS.VString "") st
  = (st, [ToSocket sock (error_message "A valid username is required.")]).
Proof. reflexivity. Qed.

Lemma join_lobby_rejects_non_string (sock rendering : string) (st : State) :
  join_lobby sock (JS.VOther rendering) st
  = (st, [ToSocket sock (error_message "A valid username is required.")]).
Proof. reflexivity. Qed.

Lemma join_lobby_accepted (sock raw : string) (st : State) :
  raw <> "" ->
  join_lobby sock (JS.VString raw) st
  = broadcastImmediate
      match OMap.get (cleanName raw) (players st) with
      | Some _ => set_players (OMap.update (cleanName raw) (reattach sock) (players st)) st
      | None =>
          set_players
            (OMap.set (cleanName raw) (new_player sock (cleanName raw)) (players st)) st
      end.
Proof.
  intros Hraw. unfold join_lobby. simpl.
  destruct (String.eqb_spec raw "") as [?|_]; done.
Qed.

(** C10, as the code has it: two raw usernames that are not empty after
    trimming and have the same trimmed first 20 characters name one player:
    after the first join the directory has an entry under that clean name,
    and the second join creates no player but re-attaches that entry to the
    new socket, marks it connected and keeps its score and pending
    submission; the other entries are not touched. *)
Theorem same_clean_name_reconnects (sock1 sock2 raw1 raw2 : string) (st : State) :
  JS.trim raw1 <> "" -> JS.trim raw2 <> "" -> cleanName raw1 = cleanName raw2 ->
  let st1 := (join_lobby sock1 (JS.VString raw1) st).1 in
  let st2 := (join_lobby sock2 (JS.VString raw2) st1).1 in
  exists p,
    OMap.get (cleanName raw1) (players st1) = Some p /\
    OMap.get (cleanName raw1) (players st2) = Some (reattach sock2 p) /\
    cumulativeScore (reattach sock2 p) = cumulativeScore p /\
    currentRoundSubmission (reattach sock2 p) = currentRoundSubmission p /\
    OMap.keys (players st2) = OMap.keys (players st1) /\
    forall k, k <> cleanName raw1 -> OMap.get k (players st2) = OMap.get k (players st1).
Proof.
  intros Htrim1 Htrim2 Hclean st1 st2.
  assert (raw1 <> "") as Hraw1 by (by intros ->).
  assert (raw2 <> "") as Hraw2 by (by intros ->).
  assert (exists p, OMap.get (cleanName raw1) (players st1) = Some p) as [p Hp].
  { subst st1. rewrite join_lobby_accepted, broadcastImmediate_players by done.
    destruct (OMap.get (cleanName raw1) (players st)) as [p0|] eqn:Hget; simpl.
    - exists (reattach sock1 p0). by rewrite get_update, Hget.
    - eexists. apply get_set. }
  assert (players st2 = OMap.update (cleanName raw1) (reattach sock2) (players st1)) as ->.
  { subst st2. rewrite join_lobby_accepted, broadcastImmediate_players by done.
    by rewrite <- Hclean, Hp. }
  exists p. split_and!; try done.
  - by rewrite get_update, Hp.
  - apply update_keys.
  - intros k Hk. by apply get_update_ne.
Qed.

(** ** The directory invariant *)

Lemma directory_ok_well_keyed (ps : list (string * PlayerData)) :
  directory_ok ps -> well_keyed ps.
Proof.
  intros [Hnodup Hok]. split; [done|].
  eapply Forall_impl; [exact Hok|]. by intros e [? _].
Qed.

Lemma keeps_entry_set_submission (s : option Submission) : keeps_entry (set_submission s).
Proof. by intros k p. Qed.

Lemma keeps_entry_add_score (q : Q) : keeps_entry (add_score q).
Proof. by intros k p. Qed.

Lemma keeps_entry_reset : keeps_entry (fun p => set_submission None (set_score 0 p)).
Proof. by intros k p. Qed.

Lemma keeps_entry_reattach (sock : string) : keeps_entry (reattach sock).
Proof.
  intros k p (Hname & Hlen & _). split_and!; try done. simpl.
  split; [done|]. by intros [? ?].
Qed.

Lemma keeps_entry_detach (now : Z) : keeps_entry (detach now).
Proof. intros k p (Hname & Hlen & _). by split_and!. Qed.

Lemma directory_ok_update (k : string) (f : PlayerData -> PlayerData)
    (ps : list (string * PlayerData)) :
  keeps_entry f -> directory_ok ps -> directory_ok (OMap.update k f ps).
Proof.
  intros Hf [Hnodup Hok]. split; [by rewrite update_keys|].
  clear Hnodup. induction Hok as [|[k' p] ps Hp Hok IH]; simpl; [constructor|].
  case_decide; constructor; try done. by apply Hf.
Qed.

Lemma directory_ok_update_at (i : nat) (f : PlayerData -> PlayerData)
    (ps : list (string * PlayerData)) :
  keeps_entry f -> directory_ok ps -> directory_ok (OMap.update_at i f ps).
Proof.
  intros Hf [Hnodup Hok]. split; [by rewrite update_at_keys|].
  clear Hnodup. unfold OMap.update_at. revert i.
  induction Hok as [|[k' p] ps Hp Hok IH]; intros [|i]; simpl.
  - constructor.
  - constructor.
  - constructor; [|done]. by apply Hf.
  - constructor; [done|]. apply IH.
Qed.

Lemma directory_ok_update_all (f : PlayerData -> PlayerData) (ps : list (string * PlayerData)) :
  keeps_entry f -> directory_ok ps -> directory_ok (OMap.update_all f ps).
Proof.
  intros Hf [Hnodup Hok]. split; [by rewrite update_all_keys|].
  unfold OMap.update_all. apply Forall_fmap. eapply Forall_impl; [exact Hok|].
  intros [k p] Hp. by apply Hf.
Qed.

Lemma directory_ok_set_new (k : string) (p : PlayerData) (ps : list (string * PlayerData)) :
  OMap.get k ps = None -> entry_ok (k, p) ->
  directory_ok ps -> directory_ok (OMap.set k p ps).
Proof.
  intros Hget Hp [Hnodup Hok]. rewrite set_keys_new by done. split.
  - unfold OMap.keys in *. rewrite fmap_app. simpl. apply NoDup_app. split_and!.
    + done.
    + intros x Hx ->%list_elem_of_singleton. by apply get_None_keys in Hget.
    + apply NoDup_singleton.
  - apply Forall_app. split; [done|]. by apply Forall_singleton.
Qed.

Lemma directory_ok_filter (keep : string * PlayerData -> bool) (ps : list (string * PlayerData)) :
  directory_ok ps -> directory_ok (List.filter keep ps).
Proof.
  intros [Hnodup Hok]. split.
  - unfold OMap.keys in *. clear Hok.
    induction ps as [|[k p] ps IH]; simpl; [done|].
    apply NoDup_cons in Hnodup as [Hk Hnodup].
    destruct (keep (k, p)); simpl; [|by apply IH].
    apply NoDup_cons. split; [|by apply IH].
    intros ([k0 p0] & -> & Hin)%list_elem_of_fmap.
    apply list_elem_of_In, filter_In in Hin as [Hin _]. apply list_elem_of_In in Hin.
    apply Hk. by apply (list_elem_of_fmap_2 fst) in Hin.
  - apply Forall_forall. intros e He.
    apply list_elem_of_In, filter_In in He as [He _]. apply list_elem_of_In in He.
    rewrite Forall_forall in Hok. by apply Hok.
Qed.

Lemma directory_ok_accumulate (g : PlayerData * Submission -> Q)
    (subs : list (PlayerData * Submission)) (ps : list (string * PlayerData)) :
  directory_ok ps -> directory_ok (accumulate g ps subs).
Proof.
  revert ps. induction subs as [|s subs IH]; intros ps Hok; [done|].
  unfold accumulate. simpl. apply IH.
  apply directory_ok_update; [apply keeps_entry_add_score|done].
Qed.

Lemma directory_ok_resolveRound (st : State) :
  directory_ok (players st) -> directory_ok (players (resolveRound st)).
Proof.
  intros Hok. unfold resolveRound. destruct (_ =? _)%nat; [done|].
  cbn [players set_lastRoundResults set_players]. rewrite resolve_fold_players.
  by apply directory_ok_accumulate.
Qed.

Lemma new_player_ok (sock raw : string) : entry_ok (cleanName raw, new_player sock (cleanName raw)).
Proof.
  split_and!; [done|apply cleanName_length|]. simpl. split; [done|]. by intros [? ?].
Qed.

Lemma directory_ok_handle (pw : string) (e : Event) (st : State) :
  directory_ok (players st) -> directory_ok (players (handle pw e st).1).
Proof.
  intros Hok. destruct e as [sock u|sock x z|sock action password|sock now|now|];
    cbn [handle].
  - destruct u as [raw|r]; [|done].
    destruct (decide (raw = "")) as [->|Hraw]; [done|].
    rewrite join_lobby_accepted, broadcastImmediate_players by done.
    destruct (OMap.get (cleanName raw) (players st)) eqn:Hget; simpl.
    + apply directory_ok_update; [apply keeps_entry_reattach|done].
    + apply directory_ok_set_new; [done|apply new_player_ok|done].
  - unfold submit_choice.
    destruct (findPlayerBySocketId sock st) as [[i e]|]; [|done].
    destruct (negb _); [done|]. destruct (JS.parseInt x) as [n|]; [|done].
    destruct (_ || _); [done|]. destruct (valid_shield _) as [q|]; [|done].
    cbn [fst]. destruct (broadcastThrottled_fields
      (set_players (OMap.update_at i
         (set_submission (Some {| sub_x := n; sub_z := q |})) (players st)) st)) as [-> _].
    apply directory_ok_update_at; [apply keeps_entry_set_submission|done].
  - unfold admin_action.
    repeat (match goal with |- context [if ?b then _ else _] => destruct b end);
      try done; rewrite broadcastImmediate_players; simpl; try done.
    + apply directory_ok_update_all; [apply keeps_entry_set_submission|done].
    + by apply directory_ok_resolveRound.
    + apply directory_ok_update_all; [apply keeps_entry_set_submission|done].
    + apply directory_ok_update_all; [apply keeps_entry_reset|done].
  - unfold disconnect. rewrite broadcastImmediate_players.
    destruct (findPlayerBySocketId sock st) as [[i e]|]; [|done].
    apply directory_ok_update_at; [apply keeps_entry_detach|done].
  - rewrite reaper_players by apply Hok. by apply directory_ok_filter.
  - unfold timer_fired. by destruct (broadcastTimer st).
Qed.

(** In every state the server can reach, the directory is well keyed, no
    identity is longer than 20 characters, and a player is offline exactly
    when its [disconnectedAt] is set. *)
Lemma reachable_directory_ok (pw : string) (st : State) :
  reachable pw st -> directory_ok (players st).
Proof.
  induction 1 as [|st e _ IH].
  - split; [apply NoDup_nil_2|constructor].
  - by apply directory_ok_handle.
Qed.

(** The hypothesis of C1 and C7 holds in every state the server can reach. *)
Lemma reachable_well_keyed (pw : string) (st : State) :
  reachable pw st -> well_keyed (players st).
Proof. intros Hreach. by eapply directory_ok_well_keyed, reachable_directory_ok. Qed.

(** * The properties on the scenarios *)

Lemma st_closing_well_keyed : well_keyed (players st_closing).
Proof.
  split.
  - refine (bool_decide_unpack (NoDup (OMap.keys (players st_closing))) _).
    vm_compute. exact I.
  - vm_compute. repeat constructor.
Defined.

(** The literal case of the specification: of three submitters choosing 5, 5
    and 8, the popularity of 5 is 200/3 and that of 8 is 100/3. *)
Example popularity_5_5_8 :
  let subs := submitters_of (players st_closing) in
  length subs = 3%nat /\ chose 5 subs = 2%nat /\ chose 8 subs = 1%nat /\
  (popularity (chose 5 subs) (length subs) == 200 # 3)%Q /\
  (popularity (chose 8 subs) (length subs) == 100 # 3)%Q.
Proof. vm_compute. by split_and!. Qed.

(** C1 on the round of 5, 5 and 8: Alice, who chose 5 and predicted 60, had
    0 and has 0 + (5 * (1 - 2/3) - (200/3 - 60)/10) = 1 *)
Lemma resolveRound_scores_witness :
  well_keyed (players st_closing) /\
  (1 <= length (submitters_of (players st_closing)))%nat /\
  players (resolveRound st_closing)
  = (fun e => (e.1, scored (submitters_of (players st_closing)) e.2)) <$> players st_closing /\
  exists p',
    players (resolveRound st_closing) !! O = Some ("Alice", p') /\
    (cumulativeScore p' == 1)%Q.
Proof.
  split; [exact st_closing_well_keyed|].
  assert (1 <= length (submitters_of (players st_closing)))%nat as Hsome.
  { vm_compute. lia. }
  split; [exact Hsome|].
  destruct (resolveRound_scores st_closing st_closing_well_keyed)
    as (_ & Hscored & _ & Hplayer & _).
  split; [exact (proj2 (Hscored Hsome))|].
  assert (exists p, players st_closing !! O = Some ("Alice", p) /\
                    currentRoundSubmission p = Some {| sub_x := 5; sub_z := 60 |} /\
                    (cumulativeScore p == 0)%Q) as (p & Hp & Hsub & Hzero).
  { vm_compute. eexists. split_and!; reflexivity. }
  destruct (Hplayer O "Alice" p Hp) as (p' & Hp' & _ & _ & Hscore).
  exists p'. split; [exact Hp'|]. rewrite Hscore, Hsub.
  assert (round_score (submitters_of (players st_closing)) {| sub_x := 5; sub_z := 60 |} == 1)%Q
    as Hround by (vm_compute; reflexivity).
  rewrite Hround, Hzero. reflexivity.
Defined.

(** C2 refuted as stated: after the round of [st_closing] is resolved, the
    three players still hold their submissions. *)
Lemma resolve_round_keeps_submissions :
  gameState st_closing = round_input /\
  gameState (authorized secret "admin" resolve_round st_closing).1 = round_resolution /\
  has_submitted <$> OMap.values (players (authorized secret "admin" resolve_round st_closing).1)
  = [true; true; true].
Proof. vm_compute. by split_and!. Qed.

(** C2, amended, on the same round *)
Lemma submissions_cleared_at_round_start_witness :
  (legal_from start_round (gameState st_resolved) = true /\
   all_cleared st_resolved (authorized secret "admin" start_round st_resolved).1) /\
  (legal_from resolve_round (gameState st_closing) = true /\
   pending (authorized secret "admin" resolve_round st_closing).1 = pending st_closing).
Proof.
  split.
  - assert (legal_from start_round (gameState st_resolved) = true) as Hlegal
      by (vm_compute; reflexivity).
    split; [exact Hlegal|].
    exact (proj1 (submissions_cleared_at_round_start secret "admin" st_resolved) Hlegal).
  - assert (legal_from resolve_round (gameState st_closing) = true) as Hlegal
      by (vm_compute; reflexivity).
    split; [exact Hlegal|].
    exact (proj2 (proj2 (proj2 (proj2
             (submissions_cleared_at_round_start secret "admin" st_closing))) Hlegal)).
Defined.

(** C4 on two rejected requests: next_round in the lobby, and resolve_round
    twice in a row *)
Lemma illegal_phase_rejected_witness :
  (legal_from next_round (gameState initial_state) = false /\
   exists what,
     authorized secret "admin" next_round initial_state
     = (initial_state,
        [ToSocket "admin" (error_message (what ++ quoted_phase initial_state))])) /\
  (gameState st_closing = round_input /\
   authorized secret "admin" resolve_round st_resolved
   = (st_resolved,
      [ToSocket "admin"
         (error_message ("Cannot resolve from phase " ++ JS.dquote
                         ++ "round_resolution" ++ JS.dquote ++ "."))])).
Proof.
  split.
  - split; [reflexivity|].
    exact (proj1 (illegal_phase_rejected secret "admin" next_round initial_state) eq_refl).
  - assert (gameState st_closing = round_input) as Hphase by (vm_compute; reflexivity).
    split; [exact Hphase|].
    exact (proj2 (illegal_phase_rejected secret "admin" resolve_round st_closing) Hphase).
Defined.



(** C6 at the failing input: a username of three spaces passes the check of
    [join_lobby], is trimmed to the empty string, and a player whose identity
    has length 0 is created. *)
Lemma blank_username_creates_player :
  cleanName "   " = "" /\
  players (join_lobby "s1" (JS.VString "   ") initial_state).1 = [("", new_player "s1" "")] /\
  String.length (username (new_player "s1" "")) = O.
Proof. vm_compute. by split_and!. Qed.

(** C7 on Alice, offline since time 1000: a sweep exactly ten minutes later
    keeps her, a sweep one millisecond after that removes her and
    broadcasts. *)
Lemma reaper_purges_past_grace_witness :
  NoDup (OMap.keys (players st_offline)) /\
  OMap.get "Alice" (players (reaper 601000 st_offline).1)
  = OMap.get "Alice" (players st_offline) /\
  OMap.get "Alice" (players (reaper 601001 st_offline).1) = None /\
  (reaper 601001 st_offline).2
  = [ToAll (buildGameStatePayload (reaper 601001 st_offline).1)].
Proof.
  assert (NoDup (OMap.keys (players st_offline))) as Hnodup.
  { refine (bool_decide_unpack (NoDup (OMap.keys (players st_offline))) _).
    vm_compute. exact I. }
  split; [exact Hnodup|].
  destruct (reaper_purges_past_grace 601000 st_offline Hnodup) as (Hkept & _ & _).
  destruct (reaper_purges_past_grace 601001 st_offline Hnodup) as (Hgone & _ & Hemit).
  split_and!.
  - refine (proj2 (Hkept "Alice" (detach 1000 (new_player "s1" "Alice")) 1000 _ _ _ _) _);
      [vm_compute; reflexivity..|discriminate|vm_compute; discriminate].
  - refine (proj1 (Hgone "Alice" (detach 1000 (new_player "s1" "Alice")) 1000 _ _ _ _) _);
      [vm_compute; reflexivity..|discriminate|vm_compute; reflexivity].
  - apply Hemit. vm_compute. lia.
Defined.

(** C8 refuted as stated: the same request gets one text with a wrong secret
    and another with the right secret and an unknown action. *)
Lemma wrong_password_is_distinguishable :
  exists m1 m2,
    (admin_action secret "admin" (JS.VString "bogus") (JS.VString "guess") initial_state).2
    = [ToSocket "admin" (error_message m1)] /\
    (admin_action secret "admin" (JS.VString "bogus") (JS.VString secret) initial_state).2
    = [ToSocket "admin" (error_message m2)] /\
    String.eqb m1 m2 = false.
Proof. do 2 eexists. split_and!; [reflexivity..|]. vm_compute. reflexivity. Qed.

(** C8, amended, on a guessed secret *)
Lemma wrong_password_rejected_witness :
  JS.strict_eq_string (JS.VString "guess") secret = false /\
  admin_action secret "admin" (JS.VString "reset_game") (JS.VString "guess") st_resolved
  = (st_resolved, [ToSocket "admin" (error_message "Invalid admin password.")]).
Proof.
  split; [reflexivity|].
  exact (proj1 (wrong_password_rejected secret "admin" (JS.VString "reset_game")
                  (JS.VString "guess") st_resolved eq_refl)).
Defined.

(** C9 refuted as stated: in [st_near_tie] Bob's cumulativeScore (-0.001) is
    strictly greater than Alice's (-0.002), both are shown as 0, and Bob
    stands after Alice on the leaderboard. *)
Lemma greater_score_listed_later :
  exists alice bob,
    OMap.get "Alice" (players st_near_tie) = Some alice /\
    OMap.get "Bob" (players st_near_tie) = Some bob /\
    (cumulativeScore alice == - (2 # 1000))%Q /\
    (cumulativeScore bob == - (1 # 1000))%Q /\
    (cumulativeScore alice < cumulativeScore bob)%Q /\
    lb_username <$> p_leaderboard (buildGameStatePayload st_near_tie) = ["Alice"; "Bob"].
Proof. do 2 eexists. split_and!; [reflexivity..| | | |]; by vm_compute. Qed.

(** C10 refuted as stated: the raw usernames of two spaces and of no
    character have the same trimmed form, yet after a join under the first
    the join under the second is refused and re-attaches nothing. *)
Lemma empty_username_does_not_reconnect :
  let st1 := (join_lobby "s1" (JS.VString "  ") initial_state).1 in
  cleanName "  " = cleanName "" /\
  OMap.keys (players st1) = [""] /\
  join_lobby "s2" (JS.VString "") st1
  = (st1, [ToSocket "s2" (error_message "A valid username is required.")]) /\
  socketId <$> OMap.get "" (players st1) = Some (Some "s1").
Proof. vm_compute. by split_and!. Qed.

(** C10, amended, on the raw usernames "Alice" and "  Alice " *)
Lemma same_clean_name_reconnects_witness :
  let st1 := (join_lobby "s1" (JS.VString "Alice") st_resolved).1 in
  let st2 := (join_lobby "s9" (JS.VString "  Alice ") st1).1 in
  JS.trim "Alice" = "Alice" /\ JS.trim "  Alice " = "Alice" /\
  cleanName "Alice" = cleanName "  Alice " /\
  exists p,
    OMap.get (cleanName "Alice") (players st1) = Some p /\
    OMap.get (cleanName "Alice") (players st2) = Some (reattach "s9" p) /\
    cumulativeScore (reattach "s9" p) = cumulativeScore p /\
    currentRoundSubmission (reattach "s9" p) = currentRoundSubmission p /\
    OMap.keys (players st2) = OMap.keys (players st1) /\
    forall k, k <> cleanName "Alice" -> OMap.get k (players st2) = OMap.get k (players st1).
Proof.
  split_and!; [reflexivity..|].
  refine (same_clean_name_reconnects "s1" "s9" "Alice" "  Alice " st_resolved _ _ _);
    [vm_compute; discriminate..|reflexivity].
Defined.

(** * Further properties of the server *)

(** ** What a handler emits *)

Lemma sweep_count_grows (now : Z) (l : list (string * PlayerData))
    (acc : list (string * PlayerData) * nat) :
  (acc.2 <= (foldl (sweep_step now) acc l).2)%nat.
Proof.
  revert acc. induction l as [|e l IH]; intros acc; [done|].
  simpl. etrans; [|apply IH]. unfold sweep_step. destruct (stale now e.2); simpl; lia.
Qed.

Lemma sweep_none (now : Z) (l : list (string * PlayerData))
    (acc : list (string * PlayerData) * nat) :
  (foldl (sweep_step now) acc l).2 = acc.2 -> (foldl (sweep_step now) acc l).1 = acc.1.
Proof.
  revert acc. induction l as [|e l IH]; intros acc; [done|].
  simpl. unfold sweep_step at 2 4. destruct (stale now e.2); [|apply IH].
  intros Hcount.
  pose proof (sweep_count_grows now l (OMap.delete e.1 acc.1, S acc.2)) as Hgrows.
  simpl in Hgrows. lia.
Qed.

Lemma set_players_same (st : State) : set_players (players st) st = st.
Proof. by destruct st. Qed.

Lemma timer_fired_pending (st : State) :
  timer_fired st = if broadcastTimer st then broadcastImmediate st else (st, []).
Proof. unfold timer_fired, broadcastImmediate. by destruct (broadcastTimer st). Qed.

Lemma handle_outcome (pw : string) (e : Event) (st : State) : outcome e st (handle pw e st).
Proof.
  destruct e as [sock u|sock x z|sock action password|sock now|now|]; cbn [handle].
  - unfold join_lobby. destruct (_ || _); [by apply outcome_error|apply outcome_immediate].
  - unfold submit_choice.
    destruct (findPlayerBySocketId sock st) as [[i e]|]; [|by apply outcome_error].
    destruct (negb _); [by apply outcome_error|].
    destruct (JS.parseInt x) as [n|]; [|by apply outcome_error].
    destruct (_ || _); [by apply outcome_error|].
    destruct (valid_shield _) as [q|]; [|by apply outcome_error].
    by apply outcome_ack.
  - unfold admin_action.
    repeat (match goal with |- context [if ?b then _ else _] => destruct b end);
      first [by apply outcome_error|apply outcome_immediate].
  - apply outcome_immediate.
  - unfold reaper.
    destruct (Nat.ltb_spec 0 (foldl (sweep_step now) (players st, O) (players st)).2)
      as [Hsome|Hnone]; [apply outcome_immediate|].
    rewrite (sweep_none now (players st) (players st, O)) by (simpl; lia).
    simpl. rewrite set_players_same. apply outcome_quiet.
  - rewrite timer_fired_pending.
    destruct (broadcastTimer st); [apply outcome_immediate|apply outcome_quiet].
Qed.

Lemma broadcastImmediate_timer (st : State) : broadcastTimer (broadcastImmediate st).1 = false.
Proof. unfold broadcastImmediate. by destruct (broadcastTimer st) eqn:Htimer. Qed.

Lemma broadcastThrottled_timer (st : State) : broadcastTimer (broadcastThrottled st) = true.
Proof. unfold broadcastThrottled. by destruct (broadcastTimer st) eqn:Htimer. Qed.

(** X1: a [game_state_update] always carries the payload of the state the
    handler leaves behind, and once it is emitted no throttled broadcast is
    pending any more: an immediate broadcast cancels the scheduled one. *)
Theorem broadcast_is_current (pw : string) (e : Event) (st : State) (payload : Payload) :
  ToAll payload ∈ (handle pw e st).2 ->
  payload = buildGameStatePayload (handle pw e st).1 /\
  broadcastTimer (handle pw e st).1 = false /\
  (handle pw e st).2 = [ToAll payload].
Proof.
  intros Hin. destruct (handle_outcome pw e st) as [sock msg _|st1|st1 sock r x z _|].
  - apply list_elem_of_singleton in Hin. discriminate.
  - rewrite broadcastImmediate_emits in Hin. apply list_elem_of_singleton in Hin.
    injection Hin as ->. split_and!; [done|apply broadcastImmediate_timer|done].
  - apply list_elem_of_singleton in Hin. discriminate.
  - by apply elem_of_nil in Hin.
Qed.

(** X2: no change of the state goes unannounced: after any event either the
    state is exactly the one before, or the new state has just been
    broadcast, or a throttled broadcast is scheduled. *)
Theorem no_silent_change (pw : string) (e : Event) (st : State) :
  (handle pw e st).1 = st \/
  (handle pw e st).2 = [ToAll (buildGameStatePayload (handle pw e st).1)] \/
  broadcastTimer (handle pw e st).1 = true.
Proof.
  destruct (handle_outcome pw e st) as [sock msg _|st1|st1 sock r x z _|].
  - by left.
  - right. left. apply broadcastImmediate_emits.
  - right. right. apply broadcastThrottled_timer.
  - by left.
Qed.

(** X3: what goes to a single socket goes to the socket the event came from,
    and an error message is the whole effect of its event: the state is left
    exactly as it was and nothing else is emitted. *)
Theorem replies_go_to_the_caller (pw : string) (e : Event) (st : State)
    (sock : string) (m : ClientMessage) :
  ToSocket sock m ∈ (handle pw e st).2 ->
  event_socket e = Some sock /\
  (forall message, m = error_message message ->
     handle pw e st = (st, [ToSocket sock (error_message message)])).
Proof.
  intros Hin. destruct (handle_outcome pw e st) as [sock' msg Hsock|st1|st1 sock' r x z Hsock|].
  - apply list_elem_of_singleton in Hin. injection Hin as -> ->.
    split; [done|]. by intros message [= ->].
  - rewrite broadcastImmediate_emits in Hin. apply list_elem_of_singleton in Hin.
    discriminate.
  - apply list_elem_of_singleton in Hin. injection Hin as -> ->.
    split; [done|]. intros message. discriminate.
  - by apply elem_of_nil in Hin.
Qed.

(** ** Coalesced broadcasts *)

Lemma run_trace_app (pw : string) (es es' : list Event) (st : State) :
  run_trace pw (es ++ es') st
  = ((run_trace pw es' (run_trace pw es st).1).1,
     ((run_trace pw es st).2 ++ (run_trace pw es' (run_trace pw es st).1).2)%list).
Proof.
  revert st. induction es as [|e es IH]; intros st.
  - simpl. by destruct (run_trace pw es' st).
  - change ((e :: es) ++ es')%list with (e :: (es ++ es'))%list.
    cbn [run_trace]. rewrite IH. cbn [fst snd]. by rewrite app_assoc.
Qed.

Lemma run_trace_state (pw : string) (es : list Event) (st : State) :
  (run_trace pw es st).1 = run pw es st.
Proof. revert st. induction es as [|e es IH]; intros st; [done|]. simpl. apply IH. Qed.

Lemma broadcasts_app (out out' : list Emit) :
  broadcasts (out ++ out') = (broadcasts out ++ broadcasts out')%list.
Proof. apply omap_app. Qed.

Lemma submit_choice_quiet (sock : string) (x z : JS.value) (st : State) :
  broadcasts (submit_choice sock x z st).2 = [] /\
  broadcastTimer (submit_choice sock x z st).1
  = broadcastTimer st || existsb is_ack (submit_choice sock x z st).2.
Proof.
  unfold submit_choice, reply.
  destruct (findPlayerBySocketId sock st) as [[i e]|];
    [|by rewrite orb_false_r].
  destruct (negb _); [by rewrite orb_false_r|].
  destruct (JS.parseInt x) as [n|]; [|by rewrite orb_false_r].
  destruct (_ || _); [by rewrite orb_false_r|].
  destruct (valid_shield _) as [q|]; [|by rewrite orb_false_r].
  cbn [fst snd existsb is_ack]. rewrite broadcastThrottled_timer.
  split; [done|]. by rewrite orb_true_r.
Qed.

Lemma submits_quiet (pw : string) (es : list Event) (st : State) :
  forallb is_submit es = true ->
  broadcasts (run_trace pw es st).2 = [] /\
  broadcastTimer (run_trace pw es st).1
  = broadcastTimer st || existsb is_ack (run_trace pw es st).2.
Proof.
  revert st. induction es as [|e es IH]; intros st Hsubmits.
  - simpl. by rewrite orb_false_r.
  - simpl in Hsubmits. apply andb_prop in Hsubmits as [He Hes].
    destruct e as [|sock x z| | | |]; try discriminate.
    cbn [run_trace handle fst snd].
    destruct (submit_choice_quiet sock x z st) as [Hquiet Htimer].
    destruct (IH (submit_choice sock x z st).1 Hes) as [Hquiet' Htimer'].
    rewrite broadcasts_app, Hquiet, Hquiet', Htimer', Htimer, existsb_app.
    split; [done|]. by rewrite orb_assoc.
Qed.

(** X4: however many submissions arrive while no broadcast is scheduled, none
    of them broadcasts; when the timer then fires, exactly one
    [game_state_update] goes out if at least one submission was accepted,
    carrying the state after all of them, and none otherwise. *)
Theorem submissions_are_coalesced (pw : string) (es : list Event) (st : State) :
  forallb is_submit es = true -> broadcastTimer st = false ->
  let r := run_trace pw (es ++ [ETimer]) st in
  broadcasts (run_trace pw es st).2 = [] /\
  broadcasts r.2
  = (if existsb is_ack (run_trace pw es st).2 then [buildGameStatePayload r.1] else []) /\
  broadcastTimer r.1 = false.
Proof.
  intros Hsubmits Hidle r. subst r.
  destruct (submits_quiet pw es st Hsubmits) as [Hquiet Htimer].
  rewrite Hidle in Htimer. simpl in Htimer.
  rewrite run_trace_app. cbn [fst snd run_trace handle].
  rewrite app_nil_r, broadcasts_app, Hquiet, timer_fired_pending, Htimer.
  split; [done|].
  destruct (existsb is_ack (run_trace pw es st).2).
  - rewrite broadcastImmediate_emits, broadcastImmediate_timer. by split.
  - by split.
Qed.

(** ** The ways the handlers end *)

Lemma admin_action_cases (pw sock : string) (action password : JS.value) (st : State) :
  (exists message, admin_action pw sock action password st = reply st sock message) \/
  ((gameState st = lobby \/ gameState st = round_resolution) /\
   admin_action pw sock action password st
   = broadcastImmediate
       (set_lastRoundResults [] (set_gameState round_input (clearSubmissions st)))) \/
  (gameState st = round_input /\
   admin_action pw sock action password st
   = broadcastImmediate (set_gameState round_resolution (resolveRound st))) \/
  (gameState st = round_resolution /\ 3 <= currentRound st /\
   admin_action pw sock action password st
   = broadcastImmediate (set_gameState final_standings st)) \/
  (gameState st = round_resolution /\ currentRound st < 3 /\
   admin_action pw sock action password st
   = broadcastImmediate
       (set_lastRoundResults []
          (set_gameState round_input
             (clearSubmissions (set_currentRound (currentRound st + 1) st))))) \/
  admin_action pw sock action password st = broadcastImmediate (resetGame st).
Proof.
  unfold admin_action.
  destruct (negb _); [left; by eexists|].
  destruct (JS.strict_eq_string action "start_round").
  { destruct (gameState st) eqn:Hphase; simpl;
      first [left; by eexists|right; left; split; [by auto|done]]. }
  destruct (JS.strict_eq_string action "resolve_round").
  { destruct (gameState st) eqn:Hphase; simpl;
      first [left; by eexists|right; right; left; by split]. }
  destruct (JS.strict_eq_string action "next_round").
  { destruct (gameState st) eqn:Hphase; simpl; try (left; by eexists).
    destruct (Z.leb_spec 3 (currentRound st)).
    - right. right. right. left. by split_and!.
    - right. right. right. right. left. by split_and!. }
  destruct (JS.strict_eq_string action "reset_game").
  { by repeat right. }
  left. by eexists.
Qed.

Lemma submit_choice_cases (sock : string) (x z : JS.value) (st : State) :
  (exists message, submit_choice sock x z st = reply st sock message) \/
  (exists i e n q,
     findPlayerBySocketId sock st = Some (i, e) /\ gameState st = round_input /\
     choice_accepted x n /\ prediction_accepted z q /\
     submit_choice sock x z st
     = (broadcastThrottled (set_players (<[i := submitted n q e]> (players st)) st),
        [ToSocket sock (submission_ack (currentRound st) n q)])).
Proof.
  destruct (findPlayerBySocketId sock st) as [[i e]|] eqn:Hfind;
    [|left; unfold submit_choice; rewrite Hfind; by eexists].
  destruct (decide (gameState st = round_input)) as [Hphase|Hphase];
    [|left; unfold submit_choice; rewrite Hfind, bool_decide_eq_false_2 by done;
      by eexists].
  destruct (JS.parseInt x) as [n|] eqn:Hx;
    [|left; unfold submit_choice; rewrite Hfind, Hphase, Hx; by eexists].
  destruct (decide (1 <= n <= 10)) as [Hn|Hn]; cycle 1.
  { left. unfold submit_choice. rewrite Hfind, Hphase, Hx. simpl.
    destruct (Z.ltb_spec n 1); [by eexists|].
    destruct (Z.ltb_spec 10 n); [by eexists|]. lia. }
  destruct (valid_shield (JS.parseFloat z)) as [q|] eqn:Hz; cycle 1.
  { left. unfold submit_choice. rewrite Hfind, Hphase, Hx, Hz. simpl.
    destruct (Z.ltb_spec n 1); [lia|]. destruct (Z.ltb_spec 10 n); [lia|].
    by eexists. }
  apply valid_shield_accepted in Hz.
  right. exists i, e, n, q. split_and!; try done.
  by apply submit_choice_stores.
Qed.

Lemma join_lobby_cases (sock : string) (username : JS.value) (st : State) :
  join_lobby sock username st
  = reply st sock "A valid username is required." \/
  exists raw, username = JS.VString raw /\ raw <> "" /\
    ((exists p, OMap.get (cleanName raw) (players st) = Some p /\
        join_lobby sock username st
        = broadcastImmediate
            (set_players (OMap.update (cleanName raw) (reattach sock) (players st)) st)) \/
     (OMap.get (cleanName raw) (players st) = None /\
        join_lobby sock username st
        = broadcastImmediate
            (set_players
               (OMap.set (cleanName raw) (new_player sock (cleanName raw)) (players st))
               st))).
Proof.
  destruct username as [raw|r]; [|by left].
  destruct (decide (raw = "")) as [->|Hraw]; [by left|].
  right. exists raw. split_and!; try done.
  rewrite join_lobby_accepted by done.
  destruct (OMap.get (cleanName raw) (players st)) as [p|] eqn:Hget.
  - left. by exists p.
  - by right.
Qed.

Lemma reaper_fields (now : Z) (st : State) :
  gameState (reaper now st).1 = gameState st /\
  currentRound (reaper now st).1 = currentRound st /\
  lastRoundResults (reaper now st).1 = lastRoundResults st /\
  players (reaper now st).1 = (foldl (sweep_step now) (players st, O) (players st)).1.
Proof.
  unfold reaper. destruct (_ <? _)%nat; [|done].
  by rewrite broadcastImmediate_gameState, broadcastImmediate_currentRound,
    broadcastImmediate_lastRoundResults, broadcastImmediate_players.
Qed.

Lemma delete_sublist {V : Type} (k : string) (m : list (string * V)) :
  sublist (OMap.delete k m) m.
Proof.
  induction m as [|[k' v] m IH]; simpl; [done|].
  case_decide; [by apply sublist_cons|by apply sublist_skip].
Qed.

Lemma sweep_sublist (now : Z) (l : list (string * PlayerData))
    (acc : list (string * PlayerData) * nat) :
  sublist (foldl (sweep_step now) acc l).1 acc.1.
Proof.
  revert acc. induction l as [|e l IH]; intros acc; [done|].
  simpl. etrans; [apply IH|]. unfold sweep_step.
  destruct (stale now e.2); [apply delete_sublist|done].
Qed.

Lemma reaper_sublist (now : Z) (st : State) :
  sublist (players (reaper now st).1) (players st).
Proof.
  destruct (reaper_fields now st) as (_ & _ & _ & ->).
  apply (sweep_sublist now (players st) (players st, O)).
Qed.

(** ** Invariants of the game *)

Section EntryFacts.
Context {V : Type} (P : string * V -> Prop).
Implicit Types (m : list (string * V)) (k : string) (v : V) (f : V -> V).

Lemma Forall_update k f m :
  (forall k v, P (k, v) -> P (k, f v)) -> Forall P m -> Forall P (OMap.update k f m).
Proof.
  intros Hf Hm. induction Hm as [|[k' v] m Hv Hm IH]; simpl; [constructor|].
  case_decide; constructor; try done. by apply Hf.
Qed.

Lemma Forall_update_all f m :
  (forall k v, P (k, f v)) -> Forall P (OMap.update_all f m).
Proof.
  intros Hf. unfold OMap.update_all. apply Forall_fmap, Forall_forall.
  intros [k v] _. apply Hf.
Qed.

Lemma Forall_set k v m : P (k, v) -> Forall P m -> Forall P (OMap.set k v m).
Proof.
  intros Hv Hm. induction Hm as [|[k' v'] m Hv' Hm IH]; simpl.
  - by apply Forall_singleton.
  - case_decide; subst; by constructor.
Qed.

Lemma Forall_sublist m m' : sublist m' m -> Forall P m -> Forall P m'.
Proof.
  intros Hsub Hm. apply Forall_forall. intros e He.
  rewrite Forall_forall in Hm. apply Hm. by eapply elem_of_sublist.
Qed.
End EntryFacts.

Lemma Forall_accumulate (P : string * PlayerData -> Prop)
    (g : PlayerData * Submission -> Q) (subs : list (PlayerData * Submission))
    (ps : list (string * PlayerData)) :
  (forall k p q, P (k, p) -> P (k, add_score q p)) ->
  Forall P ps -> Forall P (accumulate g ps subs).
Proof.
  intros Hadd. revert ps. induction subs as [|s subs IH]; intros ps Hps; [done|].
  unfold accumulate. simpl. apply IH. apply Forall_update; [|done].
  intros k p. apply Hadd.
Qed.

Lemma submitters_in_range (ps : list (string * PlayerData)) :
  Forall pending_in_range ps ->
  Forall (fun s => submission_in_range s.2) (submitters_of ps).
Proof.
  intros Hps. apply Forall_forall. intros s (e & He & Hs)%list_elem_of_omap.
  destruct (currentRoundSubmission e.2) as [s0|] eqn:Hsub; simplify_eq/=.
  rewrite Forall_forall in Hps. by apply (Hps e He).
Qed.

Lemma resolveRound_fields (st : State) :
  gameState (resolveRound st) = gameState st /\
  currentRound (resolveRound st) = currentRound st /\
  lastRoundResults (resolveRound st)
  = score_of (length (submitters_of (players st)))
      (foldl freq_step ∅ (submitters_of (players st))) <$> submitters_of (players st) /\
  players (resolveRound st)
  = accumulate (fun s => r_roundScore
                           (score_of (length (submitters_of (players st)))
                              (foldl freq_step ∅ (submitters_of (players st))) s))
      (players st) (submitters_of (players st)).
Proof.
  unfold resolveRound.
  destruct (Nat.eqb_spec (length (submitters_of (players st))) 0) as [Hzero|Hpos].
  - apply length_zero_iff_nil in Hzero. rewrite Hzero. by split_and!.
  - cbn [gameState currentRound lastRoundResults players set_lastRoundResults set_players].
    rewrite resolve_fold_results, resolve_fold_players. by split_and!.
Qed.

Lemma game_ok_resolve (st : State) :
  gameState st = round_input -> game_ok st ->
  game_ok (set_gameState round_resolution (resolveRound st)).
Proof.
  intros Hphase (Hround & _ & _ & _ & Hpending & _).
  destruct (resolveRound_fields st) as (_ & Hr & Hresults & Hplayers).
  unfold game_ok. cbn [gameState currentRound lastRoundResults players set_gameState].
  rewrite Hr, Hresults, Hplayers. split_and!; try done; try lia.
  - intros [?|?]; discriminate.
  - by apply Forall_accumulate.
  - apply Forall_fmap. eapply Forall_impl; [by apply submitters_in_range|].
    by intros s Hs.
Qed.

Lemma game_ok_same_fields (st st' : State) :
  players st' = players st -> gameState st' = gameState st ->
  currentRound st' = currentRound st -> lastRoundResults st' = lastRoundResults st ->
  game_ok st -> game_ok st'.
Proof. unfold game_ok. by intros -> -> -> ->. Qed.

Lemma game_ok_broadcastImmediate (st : State) :
  game_ok st -> game_ok (broadcastImmediate st).1.
Proof.
  apply game_ok_same_fields;
    [apply broadcastImmediate_players|apply broadcastImmediate_gameState
    |apply broadcastImmediate_currentRound|apply broadcastImmediate_lastRoundResults].
Qed.

Lemma game_ok_players (ps : list (string * PlayerData)) (st : State) :
  (Forall nothing_pending (players st) -> Forall nothing_pending ps) ->
  (Forall pending_in_range (players st) -> Forall pending_in_range ps) ->
  game_ok st -> game_ok (set_players ps st).
Proof.
  intros Hnone Hrange (Hround & Hlobby & Hfinal & Hempty & Hpending & Hresults).
  unfold game_ok. cbn [gameState currentRound lastRoundResults players set_players].
  split_and!; try done; try lia; [|by auto].
  intros Hphase. destruct (Hlobby Hphase). by auto.
Qed.

Lemma game_ok_handle (pw : string) (e : Event) (st : State) :
  game_ok st -> game_ok (handle pw e st).1.
Proof.
  intros Hok. destruct e as [sock u|sock x z|sock action password|sock now|now|];
    cbn [handle].
  - destruct (join_lobby_cases sock u st)
      as [->|(raw & -> & Hraw & [(p & Hget & ->)|(Hget & ->)])]; [done|..];
      apply game_ok_broadcastImmediate, game_ok_players; try done.
    + by apply Forall_update.
    + by apply Forall_update.
    + by apply Forall_set.
    + apply Forall_set. by intros s.
  - destruct (submit_choice_cases sock x z st)
      as [[message ->]|(i & e & n & q & Hfind & Hphase & Hx & Hz & ->)]; [done|].
    cbn [fst].
    destruct (broadcastThrottled_fields
                (set_players (<[i:=submitted n q e]> (players st)) st))
      as (Hp & Hs & Hr & Hl).
    eapply game_ok_same_fields; [done..|].
    destruct Hok as (Hround & Hlobby & Hfinal & Hempty & Hpending & Hresults).
    unfold game_ok. cbn [gameState currentRound lastRoundResults players set_players].
    split_and!; try done; try lia.
    + intros Hlob. congruence.
    + apply Forall_insert; [done|]. intros s [= <-].
      destruct Hx as [_ Hn]. destruct Hz as (_ & Hq). by split.
  - destruct Hok as (Hround & Hlobby & Hfinal & Hempty & Hpending & Hresults).
    destruct (admin_action_cases pw sock action password st)
      as [[message ->]|[[Hphase ->]|[[Hphase ->]|[(Hphase & Hlast & ->)
         |[(Hphase & Hmore & ->)| ->]]]]].
    + done.
    + apply game_ok_broadcastImmediate. unfold game_ok. simpl.
      split_and!; try done; try lia. apply Forall_update_all. by intros k p s.
    + apply game_ok_broadcastImmediate, game_ok_resolve; [done|].
      exact (conj Hround (conj Hlobby (conj Hfinal (conj Hempty (conj Hpending Hresults))))).
    + apply game_ok_broadcastImmediate. unfold game_ok. simpl.
      split_and!; try done; try lia. intros [?|?]; discriminate.
    + apply game_ok_broadcastImmediate. unfold game_ok. simpl.
      split_and!; try done; try lia. apply Forall_update_all. by intros k p s.
    + apply game_ok_broadcastImmediate. unfold game_ok. simpl.
      split_and!; try done.
      * intros _. split; [done|]. by apply Forall_update_all.
      * apply Forall_update_all. by intros k p s.
  - unfold disconnect. apply game_ok_broadcastImmediate.
    destruct (findPlayerBySocketId sock st) as [[i e]|]; [|done].
    apply game_ok_players; [| |done]; unfold OMap.update_at; intros Hall;
      (apply Forall_alter; [done|]); by intros [k p].
  - destruct (reaper_fields now st) as (Hs & Hr & Hl & _).
    pose proof (reaper_sublist now st) as Hsub.
    destruct Hok as (Hround & Hlobby & Hfinal & Hempty & Hpending & Hresults).
    unfold game_ok. rewrite Hs, Hr, Hl. split_and!; try done; try lia.
    + intros Hphase. destruct (Hlobby Hphase). split; [done|].
      by eapply Forall_sublist.
    + by eapply Forall_sublist.
  - unfold timer_fired. by destruct (broadcastTimer st).
Qed.

Lemma reachable_game_ok (pw : string) (st : State) : reachable pw st -> game_ok st.
Proof.
  induction 1 as [|st e _ IH]; [|by apply game_ok_handle].
  unfold game_ok. simpl. split_and!; try done; constructor.
Qed.

Lemma run_reachable (pw : string) (es : list Event) (st : State) :
  reachable pw st -> reachable pw (run pw es st).
Proof.
  revert st. induction es as [|e es IH]; intros st Hst; [done|].
  simpl. apply IH. by constructor.
Qed.

(** X5: in every state the server can reach the round counter is 1, 2 or 3;
    in the lobby it is 1 and nobody holds a submission; the final standings
    are only shown in round 3; and before a round is resolved (lobby and
    round_input) there are no round results. *)
Theorem reachable_round_and_results (pw : string) (st : State) :
  reachable pw st ->
  1 <= currentRound st <= 3 /\
  (gameState st = lobby ->
   currentRound st = 1 /\ Forall (fun e => e.2 = None) (pending st)) /\
  (gameState st = final_standings -> currentRound st = 3) /\
  (gameState st = lobby \/ gameState st = round_input -> lastRoundResults st = []).
Proof.
  intros (Hround & Hlobby & Hfinal & Hempty & _)%reachable_game_ok.
  split_and!; try done; try lia.
  intros Hphase. destruct (Hlobby Hphase) as [Hone Hnone]. split; [done|].
  unfold pending. apply Forall_fmap. eapply Forall_impl; [exact Hnone|]. by intros e.
Qed.

(** X6: in every state the server can reach, every stored submission and
    every round result has a sword between 1 and 10 and a shield between 0
    and 100. *)
Theorem reachable_values_in_range (pw : string) (st : State) :
  reachable pw st ->
  (forall name p s,
     (name, p) ∈ players st -> currentRoundSubmission p = Some s ->
     1 <= sub_x s <= 10 /\ (0 <= sub_z s)%Q /\ (sub_z s <= 100)%Q) /\
  (forall r, r ∈ lastRoundResults st ->
     1 <= r_x r <= 10 /\ (0 <= r_z r)%Q /\ (r_z r <= 100)%Q).
Proof.
  intros (_ & _ & _ & _ & Hpending & Hresults)%reachable_game_ok. split.
  - intros name p s Hin Hs. rewrite Forall_forall in Hpending.
    by apply (Hpending (name, p) Hin s).
  - intros r Hr. rewrite Forall_forall in Hresults. by apply Hresults.
Qed.

(** ** Bounds on the scores of a round *)

Lemma Qnat_pos (n : nat) : (1 <= n)%nat -> (0 < Qnat n)%Q.
Proof.
  intros Hn. unfold Qnat. change 0%Q with (inject_Z 0). rewrite <- Zlt_Qlt. lia.
Qed.

Lemma Qnat_le (n m : nat) : (n <= m)%nat -> (Qnat n <= Qnat m)%Q.
Proof. intros Hnm. unfold Qnat. rewrite <- Zle_Qle. lia. Qed.

Lemma share_bounds (k N : nat) :
  (1 <= k)%nat -> (k <= N)%nat -> (0 < Qnat k / Qnat N)%Q /\ (Qnat k / Qnat N <= 1)%Q.
Proof.
  intros Hk HkN.
  assert (0 < Qnat N)%Q as HN by (apply Qnat_pos; lia).
  pose proof (Qnat_pos k Hk) as Hkpos. pose proof (Qnat_le k N HkN) as Hle.
  split.
  - apply Qlt_shift_div_l; [done|]. lra.
  - apply Qle_shift_div_r; [done|]. lra.
Qed.

Lemma chose_bounds (s : PlayerData * Submission) (subs : list (PlayerData * Submission)) :
  s ∈ subs -> (1 <= chose (sub_x s.2) subs)%nat /\ (chose (sub_x s.2) subs <= length subs)%nat.
Proof.
  intros Hs. unfold chose. split; [|apply length_filter].
  assert (s ∈ filter (fun s' : PlayerData * Submission => sub_x s'.2 = sub_x s.2) subs) as Hin
    by (by apply list_elem_of_filter).
  destruct (filter _ subs); [by apply elem_of_nil in Hin|simpl; lia].
Qed.

Lemma score_of_bounds (subs : list (PlayerData * Submission)) (s : PlayerData * Submission) :
  s ∈ subs -> submission_in_range s.2 ->
  let r := score_of (length subs) (foldl freq_step ∅ subs) s in
  (1 <= r_k r <= length subs)%nat /\
  (0 < r_Y r)%Q /\ (r_Y r <= 100)%Q /\
  (0 <= r_baseScore r)%Q /\ (r_baseScore r < 10)%Q /\
  (0 <= r_penalty r)%Q /\ (r_penalty r <= 10)%Q /\
  (- (10) <= r_roundScore r)%Q /\ (r_roundScore r < 10)%Q.
Proof.
  intros Hs (Hx & Hz0 & Hz100). unfold score_of. cbn [r_k r_Y r_baseScore r_penalty r_roundScore].
  rewrite freqMap_counts, lookup_empty. cbn [default Nat.add].
  destruct (chose_bounds s subs Hs) as [Hk HkN].
  destruct (share_bounds _ _ Hk HkN) as [Hshare0 Hshare1].
  generalize dependent (Qnat (chose (sub_x s.2) subs) / Qnat (length subs))%Q.
  intros share Hshare0 Hshare1.
  assert (1 <= inject_Z (sub_x s.2))%Q as Hx1
    by (change 1%Q with (inject_Z 1); rewrite <- Zle_Qle; lia).
  assert (inject_Z (sub_x s.2) <= 10)%Q as Hx10
    by (change 10%Q with (inject_Z 10); rewrite <- Zle_Qle; lia).
  generalize dependent (inject_Z (sub_x s.2)). intros x Hx1 Hx10.
  pose proof (Qabs_nonneg (share * 100 - sub_z s.2)) as Habs0.
  assert (Qabs (share * 100 - sub_z s.2) <= 100)%Q as Habs100
    by (apply Qabs_Qle_condition; split; lra).
  generalize dependent (Qabs (share * 100 - sub_z s.2)). intros miss Habs0 Habs100.
  assert (share * 100 / 100 == share)%Q as Hpercent by field.
  assert (miss / 10 == miss * (1 # 10))%Q as Htenth by field.
  assert (0 <= 1 - share * 100 / 100)%Q as Hrare0 by lra.
  assert (1 - share * 100 / 100 < 1)%Q as Hrare1 by lra.
  generalize dependent (1 - share * 100 / 100)%Q. intros rare Hrare0 Hrare1.
  assert (0 <= x * rare)%Q as Hbase0 by (apply Qmult_le_0_compat; lra).
  assert (0 <= (10 - x) * rare)%Q as Hslack by (apply Qmult_le_0_compat; lra).
  assert (x * rare < 10)%Q as Hbase10 by lra.
  split_and!; try done; try lra.
Qed.

(** X7: when the stored submissions are in range (as they are in every
    reachable state), every result of a resolved round has 1 <= k <= N,
    0 < Y <= 100, 0 <= baseScore < 10, 0 <= penalty <= 10 and
    -10 <= roundScore < 10. *)
Theorem round_scores_are_bounded (st : State) (r : RoundResult) :
  Forall pending_in_range (players st) ->
  r ∈ lastRoundResults (resolveRound st) ->
  (1 <= r_k r <= length (lastRoundResults (resolveRound st)))%nat /\
  (0 < r_Y r)%Q /\ (r_Y r <= 100)%Q /\
  (0 <= r_baseScore r)%Q /\ (r_baseScore r < 10)%Q /\
  (0 <= r_penalty r)%Q /\ (r_penalty r <= 10)%Q /\
  (- (10) <= r_roundScore r)%Q /\ (r_roundScore r < 10)%Q.
Proof.
  intros Hpending. destruct (resolveRound_fields st) as (_ & _ & -> & _).
  rewrite length_fmap. intros (s & -> & Hs)%list_elem_of_fmap.
  apply score_of_bounds; [done|].
  pose proof (submitters_in_range _ Hpending) as Hrange.
  rewrite Forall_forall in Hrange. by apply Hrange.
Qed.

(** ** What the events can change *)

Section Views.
Context {A : Type} (view : PlayerData -> A).
Implicit Types (m : list (string * PlayerData)) (f : PlayerData -> PlayerData).

Lemma view_update k f m :
  (forall p, view (f p) = view p) ->
  (fun e => (e.1, view e.2)) <$> OMap.update k f m = (fun e => (e.1, view e.2)) <$> m.
Proof.
  intros Hf. induction m as [|[k' p] m IH]; [done|].
  simpl. case_decide; simpl; [by rewrite Hf|]. f_equal. apply IH.
Qed.

Lemma view_update_at i f m :
  (forall p, view (f p) = view p) ->
  (fun e => (e.1, view e.2)) <$> OMap.update_at i f m = (fun e => (e.1, view e.2)) <$> m.
Proof.
  intros Hf. unfold OMap.update_at. revert i.
  induction m as [|[k' p] m IH]; intros [|i]; simpl; try done.
  - by rewrite Hf.
  - f_equal. apply IH.
Qed.

Lemma view_update_all f m :
  (forall p, view (f p) = view p) ->
  (fun e => (e.1, view e.2)) <$> OMap.update_all f m = (fun e => (e.1, view e.2)) <$> m.
Proof.
  intros Hf. unfold OMap.update_all. rewrite <- list_fmap_compose.
  apply list_fmap_ext. intros _ [k p] _. simpl. by rewrite Hf.
Qed.

Lemma view_insert_submitted i n q e m :
  m !! i = Some e -> (forall s p, view (set_submission s p) = view p) ->
  (fun e => (e.1, view e.2)) <$> <[i := submitted n q e]> m
  = (fun e => (e.1, view e.2)) <$> m.
Proof.
  intros Hi Hview. rewrite list_fmap_insert. unfold submitted. simpl. rewrite Hview.
  apply list_insert_id. by rewrite list_lookup_fmap, Hi.
Qed.
End Views.

Lemma handle_transition (pw : string) (e : Event) (st : State) :
  transition (gameState st, currentRound st)
    (gameState (handle pw e st).1, currentRound (handle pw e st).1).
Proof.
  destruct e as [sock u|sock x z|sock action password|sock now|now|]; cbn [handle].
  - destruct (join_lobby_cases sock u st)
      as [->|(raw & -> & Hraw & [(p & Hget & ->)|(Hget & ->)])];
      rewrite ?broadcastImmediate_gameState, ?broadcastImmediate_currentRound;
      constructor.
  - destruct (submit_choice_cases sock x z st)
      as [[message ->]|(i & e & n & q & Hfind & Hphase & Hx & Hz & ->)];
      [constructor|].
    cbn [fst].
    destruct (broadcastThrottled_fields
                (set_players (<[i:=submitted n q e]> (players st)) st))
      as (_ & -> & -> & _). constructor.
  - destruct (admin_action_cases pw sock action password st)
      as [[message ->]|[[Hphase ->]|[[Hphase ->]|[(Hphase & Hlast & ->)
         |[(Hphase & Hmore & ->)| ->]]]]];
      rewrite ?broadcastImmediate_gameState, ?broadcastImmediate_currentRound.
    + constructor.
    + by apply transition_start.
    + destruct (resolveRound_fields st) as (_ & Hr & _).
      cbn [gameState currentRound set_gameState]. rewrite Hr, Hphase. constructor.
    + simpl. rewrite Hphase. by constructor.
    + simpl. rewrite Hphase. by constructor.
    + apply transition_reset.
  - unfold disconnect.
    rewrite broadcastImmediate_gameState, broadcastImmediate_currentRound.
    destruct (findPlayerBySocketId sock st) as [[i e]|]; constructor.
  - destruct (reaper_fields now st) as (-> & -> & _). constructor.
  - unfold timer_fired. destruct (broadcastTimer st); constructor.
Qed.

(** X8: whatever the event, the phase and the round counter change only along
    the edges of the game: not at all, lobby or round_resolution to
    round_input (same round), round_input to round_resolution (same round),
    round_resolution to round_input with the next round (only before round
    3) or to final_standings (only from round 3 on), or back to the lobby
    with round 1; an event that is not an admin action changes neither, nor
    the round results. *)
Theorem phase_follows_the_game (pw : string) (e : Event) (st : State) :
  transition (gameState st, currentRound st)
    (gameState (handle pw e st).1, currentRound (handle pw e st).1) /\
  (is_admin e = false ->
   gameState (handle pw e st).1 = gameState st /\
   currentRound (handle pw e st).1 = currentRound st /\
   lastRoundResults (handle pw e st).1 = lastRoundResults st).
Proof.
  split; [apply handle_transition|].
  destruct e as [sock u|sock x z|sock action password|sock now|now|]; cbn [handle is_admin];
    intros Hother; try discriminate.
  - destruct (join_lobby_cases sock u st)
      as [->|(raw & -> & Hraw & [(p & Hget & ->)|(Hget & ->)])];
      by rewrite ?broadcastImmediate_gameState, ?broadcastImmediate_currentRound,
        ?broadcastImmediate_lastRoundResults.
  - destruct (submit_choice_cases sock x z st)
      as [[message ->]|(i & e & n & q & Hfind & Hphase & Hx & Hz & ->)]; [done|].
    cbn [fst].
    by destruct (broadcastThrottled_fields
                   (set_players (<[i:=submitted n q e]> (players st)) st))
      as (_ & -> & -> & ->).
  - unfold disconnect.
    rewrite broadcastImmediate_gameState, broadcastImmediate_currentRound,
      broadcastImmediate_lastRoundResults.
    by destruct (findPlayerBySocketId sock st) as [[i e]|].
  - by destruct (reaper_fields now st) as (-> & -> & -> & _).
  - unfold timer_fired. by destruct (broadcastTimer st).
Qed.

Lemma scores_set (k : string) (p : PlayerData) (m : list (string * PlayerData))
    (name : string) (q : Q) :
  (name, q) ∈ (fun e => (e.1, cumulativeScore e.2)) <$> OMap.set k p m ->
  (name, q) ∈ (fun e => (e.1, cumulativeScore e.2)) <$> m \/ q = cumulativeScore p.
Proof.
  induction m as [|[k' p'] m IH]; simpl.
  - intros [= _ ->]%list_elem_of_singleton. by right.
  - case_decide; simpl.
    + intros [[= -> ->]|Hin]%elem_of_cons; [by right|].
      left. by apply list_elem_of_further.
    + intros [->|Hin]%elem_of_cons; [left; apply list_elem_of_here|].
      destruct (IH Hin) as [?|?]; [left; by apply list_elem_of_further|by right].
Qed.

(** X9: only resolving a round gives a player a score that was not there
    before: after any event that does not take the game from round_input to
    round_resolution, every score in the directory is a score that the same
    player had before the event, or is 0 (a new player, or a reset). *)
Theorem scores_change_only_by_resolving (pw : string) (e : Event) (st : State)
    (name : string) (q : Q) :
  ~ (gameState st = round_input /\ gameState (handle pw e st).1 = round_resolution) ->
  (name, q) ∈ scores (handle pw e st).1 ->
  (name, q) ∈ scores st \/ q = 0%Q.
Proof.
  unfold scores. intros Hnot.
  destruct e as [sock u|sock x z|sock action password|sock now|now|]; cbn [handle] in *.
  - destruct (join_lobby_cases sock u st)
      as [->|(raw & -> & Hraw & [(p & Hget & ->)|(Hget & ->)])];
      rewrite ?broadcastImmediate_players; cbn [players set_players fst reply].
    + by left.
    + rewrite (view_update cumulativeScore) by done. by left.
    + apply scores_set.
  - destruct (submit_choice_cases sock x z st)
      as [[message ->]|(i & e & n & q' & Hfind & Hphase & Hx & Hz & ->)]; [by left|].
    cbn [fst].
    destruct (broadcastThrottled_fields
                (set_players (<[i:=submitted n q' e]> (players st)) st)) as (-> & _).
    cbn [players set_players].
    apply list_find_Some in Hfind as (Hi & _).
    rewrite (view_insert_submitted cumulativeScore) by done. by left.
  - destruct (admin_action_cases pw sock action password st)
      as [[message Hcase]|[[Hphase Hcase]|[[Hphase Hcase]|[(Hphase & Hlast & Hcase)
         |[(Hphase & Hmore & Hcase)|Hcase]]]]];
      rewrite Hcase in *; rewrite ?broadcastImmediate_players;
      rewrite ?broadcastImmediate_gameState in Hnot.
    + by left.
    + cbn [players set_lastRoundResults set_gameState clearSubmissions set_players].
      rewrite (view_update_all cumulativeScore) by done. by left.
    + destruct Hnot. by split.
    + by left.
    + cbn [players set_lastRoundResults set_gameState clearSubmissions set_players
             set_currentRound].
      rewrite (view_update_all cumulativeScore) by done. by left.
    + cbn [players resetGame]. unfold OMap.update_all. rewrite <- list_fmap_compose.
      intros ([k p] & [= -> ->] & _)%list_elem_of_fmap. by right.
  - unfold disconnect. rewrite broadcastImmediate_players.
    destruct (findPlayerBySocketId sock st) as [[i e]|]; [|by left].
    cbn [players set_players]. rewrite (view_update_at cumulativeScore) by done.
    by left.
  - intros Hin. left. eapply elem_of_sublist; [exact Hin|].
    apply fmap_sublist, reaper_sublist.
  - unfold timer_fired. destruct (broadcastTimer st); by left.
Qed.

(** ** Disconnecting and coming back *)

Lemma get_lookup {V : Type} (m : list (string * V)) (i : nat) (k : string) (v : V) :
  NoDup (OMap.keys m) -> m !! i = Some (k, v) -> OMap.get k m = Some v.
Proof.
  unfold OMap.keys. revert i. induction m as [|[k' v'] m IH]; intros i Hnodup Hi; [done|].
  apply NoDup_cons in Hnodup as [Hk Hnodup]. destruct i as [|i]; simpl in *.
  - simplify_eq. by rewrite decide_True.
  - rewrite decide_False; [by eapply IH|].
    intros ->. apply Hk. apply list_elem_of_lookup_2 in Hi.
    by apply (list_elem_of_fmap_2 fst) in Hi.
Qed.

Lemma update_is_insert {V : Type} (m : list (string * V)) (i : nat) (k : string) (v : V)
    (f : V -> V) :
  NoDup (OMap.keys m) -> m !! i = Some (k, v) -> OMap.update k f m = <[i := (k, f v)]> m.
Proof.
  unfold OMap.keys. revert i. induction m as [|[k' v'] m IH]; intros i Hnodup Hi; [done|].
  apply NoDup_cons in Hnodup as [Hk Hnodup]. destruct i as [|i]; simpl in *.
  - simplify_eq. by rewrite decide_True.
  - rewrite decide_False; [f_equal; by apply IH|].
    intros ->. apply Hk. apply list_elem_of_lookup_2 in Hi.
    by apply (list_elem_of_fmap_2 fst) in Hi.
Qed.

Lemma insert_keys {V : Type} (m : list (string * V)) (i : nat) (k : string) (v v' : V) :
  m !! i = Some (k, v) -> OMap.keys (<[i := (k, v')]> m) = OMap.keys m.
Proof.
  intros Hi. unfold OMap.keys. rewrite list_fmap_insert. simpl.
  apply list_insert_id. by rewrite list_lookup_fmap, Hi.
Qed.

Lemma lookup_unique_key {V : Type} (m : list (string * V)) (i j : nat) (k : string) (v v' : V) :
  NoDup (OMap.keys m) -> m !! i = Some (k, v) -> m !! j = Some (k, v') -> i = j.
Proof.
  unfold OMap.keys. intros Hnodup Hi Hj.
  eapply NoDup_lookup; [exact Hnodup|..]; rewrite list_lookup_fmap.
  - by rewrite Hi.
  - by rewrite Hj.
Qed.

(** X10: a player who drops and comes back under the same name, on any
    socket, is where it was: when the directory holds no key twice and
    [sock] is bound to the player under key [k], a disconnect of [sock]
    followed by a join under a name that cleans to [k] leaves the directory
    as before, except that this player is attached to the new socket; its
    place, score and pending submission are untouched, and so is everybody
    else. *)
Theorem rejoin_restores_the_player (sock sock2 raw : string) (now : Z) (st : State)
    (i : nat) (k : string) (p : PlayerData) :
  NoDup (OMap.keys (players st)) ->
  findPlayerBySocketId sock st = Some (i, (k, p)) ->
  raw <> "" -> cleanName raw = k ->
  let st1 := (disconnect sock now st).1 in
  let st2 := (join_lobby sock2 (JS.VString raw) st1).1 in
  players st1 = <[i := (k, detach now p)]> (players st) /\
  players st2 = <[i := (k, reattach sock2 p)]> (players st) /\
  cumulativeScore (reattach sock2 p) = cumulativeScore p /\
  currentRoundSubmission (reattach sock2 p) = currentRoundSubmission p /\
  connected (reattach sock2 p) = true /\ disconnectedAt (reattach sock2 p) = None.
Proof.
  intros Hnodup Hfind Hraw Hclean st1 st2.
  pose proof Hfind as (Hi & _)%list_find_Some.
  assert (players st1 = <[i := (k, detach now p)]> (players st)) as Hst1.
  { subst st1. unfold disconnect. rewrite broadcastImmediate_players, Hfind.
    cbn [players set_players]. by rewrite (update_at_insert i _ _ (k, p)). }
  split; [done|]. split; [|done].
  assert (players st1 !! i = Some (k, detach now p)) as Hi1.
  { rewrite Hst1. apply list_lookup_insert_eq. by eapply lookup_lt_Some. }
  assert (NoDup (OMap.keys (players st1))) as Hnodup1.
  { rewrite Hst1. by rewrite (insert_keys _ _ _ p). }
  subst st2. rewrite join_lobby_accepted, broadcastImmediate_players by done.
  rewrite Hclean, (get_lookup _ _ _ _ Hnodup1 Hi1). cbn [players set_players].
  rewrite (update_is_insert _ _ _ _ _ Hnodup1 Hi1), Hst1.
  by rewrite list_insert_insert_eq.
Qed.

(** X11: a disconnect that arrives late does no harm: when a player has
    re-joined on a new socket and no other player is bound to the old
    socket, the disconnect of the old socket changes nobody; the player
    stays connected on the new socket. *)
Theorem late_disconnect_is_harmless (old new raw : string) (now : Z) (st : State)
    (p : PlayerData) :
  NoDup (OMap.keys (players st)) ->
  OMap.get (cleanName raw) (players st) = Some p ->
  (forall e, e ∈ players st -> socketId e.2 = Some old -> e.1 = cleanName raw) ->
  raw <> "" -> old <> new ->
  let st1 := (join_lobby new (JS.VString raw) st).1 in
  players (disconnect old now st1).1 = players st1 /\
  OMap.get (cleanName raw) (players (disconnect old now st1).1) = Some (reattach new p).
Proof.
  intros Hnodup Hget Hbound Hraw Hsock st1.
  assert (players st1 = OMap.update (cleanName raw) (reattach new) (players st)) as Hst1.
  { subst st1. by rewrite join_lobby_accepted, broadcastImmediate_players, Hget. }
  assert (findPlayerBySocketId old st1 = None) as Hnone.
  { unfold findPlayerBySocketId. apply list_find_None. rewrite Hst1.
    apply Forall_forall. intros e He.
    assert (e ∈ players st /\ e.1 <> cleanName raw \/ e = (cleanName raw, reattach new p))
      as [[Hin Hkey]|Heq].
    { clear Hbound Hst1. revert Hnodup Hget He. unfold OMap.keys.
      induction (players st) as [|[k' p'] m IH]; simpl; [done|].
      intros [Hk Hm]%NoDup_cons. case_decide as Hkey.
      - intros [= ->]. subst k'. intros [->|Hin]%elem_of_cons; [by right|].
        left. split; [by apply list_elem_of_further|].
        intros Heq. apply Hk. rewrite <- Heq. by apply (list_elem_of_fmap_2 fst) in Hin.
      - intros Hget' [->|Hin]%elem_of_cons.
        + left. split; [apply list_elem_of_here|done].
        + destruct (IH Hm Hget' Hin) as [[? ?]|?]; [left|by right].
          split; [by apply list_elem_of_further|done]. }
    - intros Hold. by apply Hkey, Hbound.
    - subst e. simpl. congruence. }
  assert (players (disconnect old now st1).1 = players st1) as Hsame.
  { unfold disconnect. by rewrite broadcastImmediate_players, Hnone. }
  split; [done|]. by rewrite Hsame, Hst1, get_update, Hget.
Qed.

Lemma get_elem {V : Type} (k : string) (v : V) (m : list (string * V)) :
  OMap.get k m = Some v -> (k, v) ∈ m.
Proof.
  induction m as [|[k' v'] m IH]; simpl; [done|].
  case_decide; subst.
  - intros [= ->]. apply list_elem_of_here.
  - intros Hget. apply list_elem_of_further. by apply IH.
Qed.

Lemma elem_update {V : Type} (k : string) (f : V -> V) (m : list (string * V))
    (e : string * V) :
  e ∈ OMap.update k f m -> e ∈ m \/ e.1 = k.
Proof.
  induction m as [|[k' v'] m IH]; simpl; [by left|].
  case_decide; subst.
  - intros [->|Hin]%elem_of_cons; [by right|]. left. by apply list_elem_of_further.
  - intros [->|Hin]%elem_of_cons; [left; apply list_elem_of_here|].
    destruct (IH Hin) as [?|?]; [left; by apply list_elem_of_further|by right].
Qed.

Lemma elem_set {V : Type} (k : string) (v : V) (m : list (string * V)) (e : string * V) :
  e ∈ OMap.set k v m -> e ∈ m \/ e.1 = k.
Proof.
  induction m as [|[k' v'] m IH]; simpl.
  - intros ->%list_elem_of_singleton. by right.
  - case_decide; subst.
    + intros [->|Hin]%elem_of_cons; [by right|]. left. by apply list_elem_of_further.
    + intros [->|Hin]%elem_of_cons; [left; apply list_elem_of_here|].
      destruct (IH Hin) as [?|?]; [left; by apply list_elem_of_further|by right].
Qed.

Lemma join_lobby_binds (sock raw : string) (st : State) :
  raw <> "" ->
  exists p, OMap.get (cleanName raw) (players (join_lobby sock (JS.VString raw) st).1) = Some p
            /\ socketId p = Some sock /\
  forall e, e ∈ players (join_lobby sock (JS.VString raw) st).1 ->
            e ∈ players st \/ e.1 = cleanName raw.
Proof.
  intros Hraw. rewrite join_lobby_accepted, broadcastImmediate_players by done.
  destruct (OMap.get (cleanName raw) (players st)) as [p|] eqn:Hget; cbn [players set_players].
  - exists (reattach sock p). rewrite get_update, Hget. split_and!; try done.
    intros e. apply elem_update.
  - eexists. rewrite get_set. split_and!; try done. intros e. apply elem_set.
Qed.

(** X12: a socket that has joined can play: after a join that is not
    refused, the server finds a player for this socket (the one just joined
    when the socket was bound to nobody before), so that during round_input
    a submission from it that passes the checks is acknowledged. *)
Theorem joined_socket_can_submit (sock raw : string) (st : State) :
  raw <> "" ->
  let st1 := (join_lobby sock (JS.VString raw) st).1 in
  (exists i e,
     findPlayerBySocketId sock st1 = Some (i, e) /\ socketId e.2 = Some sock /\
     (findPlayerBySocketId sock st = None -> e.1 = cleanName raw)) /\
  (forall x z n q,
     gameState st = round_input -> choice_accepted x n -> prediction_accepted z q ->
     (submit_choice sock x z st1).2
     = [ToSocket sock (submission_ack (currentRound st) n q)]).
Proof.
  intros Hraw st1.
  destruct (join_lobby_binds sock raw st Hraw) as (p & Hget & Hsock & Hfrom).
  fold st1 in Hget, Hfrom.
  assert (exists i e, findPlayerBySocketId sock st1 = Some (i, e)) as (i & e & Hfind).
  { destruct (list_find_elem_of (fun e : string * PlayerData => socketId e.2 = Some sock)
                (players st1) (cleanName raw, p)) as [[i e] Hfind];
      [by apply get_elem|done|]. by exists i, e. }
  assert (gameState st1 = gameState st /\ currentRound st1 = currentRound st)
    as [Hphase Hround].
  { subst st1. rewrite join_lobby_accepted by done.
    rewrite broadcastImmediate_gameState, broadcastImmediate_currentRound.
    by destruct (OMap.get (cleanName raw) (players st)). }
  split.
  - exists i, e. pose proof Hfind as (Hi & He & _)%list_find_Some.
    split_and!; try done.
    intros Hnone%list_find_None.
    destruct (Hfrom e) as [Hold|?]; [by eapply list_elem_of_lookup_2| |done].
    rewrite Forall_forall in Hnone. by destruct (Hnone e Hold).
  - intros x z n q Hopen Hx Hz.
    rewrite (submit_choice_stores sock x z st1 i e n q); try done; [|congruence].
    cbn [snd]. by rewrite Hround.
Qed.

(** ** The payload and the status route *)

Lemma filter_and_length {A : Type} (f g : A -> bool) (l : list A) :
  (length (List.filter (fun a => f a && g a) l) <= length (List.filter f l))%nat.
Proof.
  induction l as [|a l IH]; simpl; [done|].
  destruct (f a), (g a); simpl; lia.
Qed.

(** X13: the counts of a payload fit together: the leaderboard has one entry
    per registered player, the submitted count is at most the count of
    connected players, which is at most the number of registered players and
    is the number the status route reports; the submitted count is 0 outside
    round_input, and the round results are sent in round_resolution and
    final_standings only. *)
Theorem payload_counts (st : State) :
  let payload := buildGameStatePayload st in
  length (p_leaderboard payload) = status_totalRegistered (status_route st) /\
  p_playerCount payload = status_players (status_route st) /\
  (p_submittedCount payload <= p_playerCount payload)%nat /\
  (p_playerCount payload <= length (p_leaderboard payload))%nat /\
  (gameState st <> round_input -> p_submittedCount payload = O) /\
  (gameState st = lobby \/ gameState st = round_input -> p_roundResults payload = []) /\
  (gameState st = round_resolution \/ gameState st = final_standings ->
   p_roundResults payload = rounded_result <$> lastRoundResults st).
Proof.
  assert (length (JS.sort by_score_desc (leaderboard_entry <$> OMap.values (players st)))
          = length (players st)) as Hboard.
  { rewrite (Permutation_length (sort_perm _)). unfold OMap.values.
    by rewrite !length_fmap. }
  cbn [buildGameStatePayload p_leaderboard p_playerCount p_submittedCount p_roundResults
       status_route status_players status_totalRegistered].
  rewrite Hboard. split_and!; try done.
  - case_decide; [apply filter_and_length|lia].
  - etrans; [apply List.filter_length_le|]. unfold OMap.values. by rewrite length_fmap.
  - intros Hphase. by rewrite decide_False.
  - intros [Hphase|Hphase]; rewrite Hphase; by rewrite decide_False by (intros [?|?]; done).
  - intros Hphase. by rewrite decide_True.
Qed.

(** ** Sweeping twice *)

Lemma stale_earlier (now now' : Z) (p : PlayerData) :
  now' <= now -> stale now p = false -> stale now' p = false.
Proof.
  unfold stale. intros Hle. destruct (connected p); [done|]. simpl.
  destruct (disconnectedAt p) as [t|]; [|done].
  destruct (Z.eqb_spec t 0); [done|]. simpl.
  destruct (Z.ltb_spec RECONNECT_GRACE_MS (now - t)); [done|]. intros _.
  destruct (Z.ltb_spec RECONNECT_GRACE_MS (now' - t)); [lia|done].
Qed.

Lemma filter_all {A : Type} (f : A -> bool) (l : list A) :
  Forall (fun a => f a = true) l -> List.filter f l = l.
Proof. induction 1 as [|a l Ha _ IH]; simpl; [done|]. by rewrite Ha, IH. Qed.

Lemma filter_none {A : Type} (f : A -> bool) (l : list A) :
  Forall (fun a => f a = false) l -> List.filter f l = [].
Proof. induction 1 as [|a l Ha _ IH]; simpl; [done|]. by rewrite Ha, IH. Qed.

Lemma filter_sublist {A : Type} (f : A -> bool) (l : list A) : sublist (List.filter f l) l.
Proof.
  induction l as [|a l IH]; simpl; [done|].
  destruct (f a); [by apply sublist_skip|by apply sublist_cons].
Qed.

(** X14: a sweep leaves nothing for a sweep at the same or an earlier time:
    when the directory holds no key twice, sweeping again at a time not later
    than the first sweep removes nobody, changes nothing and emits
    nothing. *)
Theorem second_sweep_is_idle (now now' : Z) (st : State) :
  NoDup (OMap.keys (players st)) -> now' <= now ->
  reaper now' (reaper now st).1 = ((reaper now st).1, []).
Proof.
  intros Hnodup Hle.
  pose proof (reaper_players now st Hnodup) as Hswept.
  assert (NoDup (OMap.keys (players (reaper now st).1))) as Hnodup1.
  { rewrite Hswept. eapply sublist_NoDup; [exact Hnodup|].
    unfold OMap.keys. apply fmap_sublist, filter_sublist. }
  assert (Forall (fun e : string * PlayerData => stale now' e.2 = false)
            (players (reaper now st).1)) as Hfresh.
  { rewrite Hswept. apply Forall_forall. intros e He.
    apply list_elem_of_In, filter_In in He as [_ He].
    apply (stale_earlier now); [done|]. by apply negb_true_iff. }
  unfold reaper at 1.
  pose proof (sweep_fold now' (players (reaper now st).1) [] O Hnodup1) as Hsweep.
  simpl in Hsweep. rewrite Hsweep. cbn [fst snd].
  rewrite (filter_none (fun e => stale now' e.2)) by done.
  rewrite filter_all; [|eapply Forall_impl; [exact Hfresh|]; by intros e ->].
  simpl. by rewrite set_players_same.
Qed.

(** ** The results of a round among themselves *)

Lemma submitters_named (ps : list (string * PlayerData)) (name : string) :
  well_keyed ps ->
  length (filter (fun s : PlayerData * Submission => username s.1 = name) (submitters_of ps))
  = match OMap.get name ps with
    | Some p => if has_submitted p then 1%nat else O
    | None => O
    end.
Proof.
  intros [Hnodup Hkeys]. induction ps as [|[k p] ps IH]; [done|].
  apply NoDup_cons in Hnodup as [Hk Hnodup]. apply Forall_cons in Hkeys as [Hp Hkeys].
  simpl in Hp. specialize (IH Hnodup Hkeys).
  rewrite submitters_of_cons. cbn [OMap.get snd fst]. unfold has_submitted in *.
  case_decide as Hname.
  - subst name.
    assert (OMap.get k ps = None) as Hnone by (apply get_None_keys; exact Hk).
    rewrite Hnone in IH.
    destruct (currentRoundSubmission p) as [s|]; [|done].
    rewrite filter_cons, decide_True by done. simpl. by rewrite IH.
  - destruct (currentRoundSubmission p) as [s|]; [|done].
    rewrite filter_cons, decide_False by (simpl; congruence). done.
Qed.

Lemma filter_fmap_length {A B : Type} (f : A -> B) (P : B -> Prop)
    `{!forall b, Decision (P b)} (l : list A) :
  length (filter P (f <$> l)) = length (filter (fun a => P (f a)) l).
Proof.
  induction l as [|a l IH]; [done|].
  rewrite fmap_cons, !filter_cons. destruct (decide (P (f a))); simpl; by rewrite IH.
Qed.

(** X15: the results of a resolved round fit together: in a well keyed
    directory there is exactly one result for a player who holds a
    submission and none for anybody else; the [k] of a result is the number
    of results with the same sword; and results with the same sword have the
    same [k], [Y] and baseScore. *)
Theorem results_are_consistent (st : State) :
  well_keyed (players st) ->
  let results := lastRoundResults (resolveRound st) in
  (forall name,
     length (filter (fun r => r_username r = name) results)
     = match OMap.get name (players st) with
       | Some p => if has_submitted p then 1%nat else O
       | None => O
       end) /\
  (forall r, r ∈ results ->
     r_k r = length (filter (fun r' => r_x r' = r_x r) results)) /\
  (forall r r', r ∈ results -> r' ∈ results -> r_x r = r_x r' ->
     r_k r = r_k r' /\ r_Y r = r_Y r' /\ r_baseScore r = r_baseScore r').
Proof.
  intros Hwf results. subst results.
  destruct (resolveRound_fields st) as (_ & _ & -> & _). split_and!.
  - intros name. rewrite filter_fmap_length. by apply submitters_named.
  - intros r (s & -> & Hs)%list_elem_of_fmap.
    rewrite filter_fmap_length. cbn [score_of r_k r_x].
    by rewrite freqMap_counts, lookup_empty.
  - intros r r' (s & -> & Hs)%list_elem_of_fmap (s' & -> & Hs')%list_elem_of_fmap.
    cbn [score_of r_x r_k r_Y r_baseScore]. by intros ->.
Qed.

(** ** The landing form and the server *)

Lemma trimStart_head (s : string) :
  JS.trimStart s = "" \/
  exists c t, JS.trimStart s = String c t /\ JS.is_whitespace c = false.
Proof.
  induction s as [|c s IH]; [by left|].
  simpl. destruct (JS.is_whitespace c) eqn:Hc; [done|]. right. by exists c, s.
Qed.

Lemma trimEnd_head (c : ascii) (s : string) :
  JS.is_whitespace c = false -> exists t, JS.trimEnd (String c s) = String c t.
Proof.
  intros Hc. simpl. destruct (JS.trimEnd s); [|by eexists].
  rewrite Hc. by eexists.
Qed.

Lemma trimEnd_idempotent (s : string) : JS.trimEnd (JS.trimEnd s) = JS.trimEnd s.
Proof.
  induction s as [|c s IH]; [done|].
  simpl. destruct (JS.trimEnd s) as [|c' t] eqn:Hend.
  - destruct (JS.is_whitespace c) eqn:Hc; [done|]. simpl. by rewrite Hc.
  - change (JS.trimEnd (String c (String c' t))) with
      match JS.trimEnd (String c' t) with
      | EmptyString => if JS.is_whitespace c then EmptyString else String c EmptyString
      | t' => String c t'
      end.
    by rewrite IH.
Qed.

Lemma trim_idempotent (s : string) : JS.trim (JS.trim s) = JS.trim s.
Proof.
  unfold JS.trim. destruct (trimStart_head s) as [->|(c & t & -> & Hc)]; [done|].
  destruct (trimEnd_head c t Hc) as [t' Hend]. rewrite Hend.
  cbn [JS.trimStart]. rewrite Hc, <- Hend. apply trimEnd_idempotent.
Qed.

Lemma trim_nonempty_head (s : string) :
  JS.trim s <> "" -> exists c t, JS.trim s = String c t /\ JS.is_whitespace c = false.
Proof.
  unfold JS.trim. destruct (trimStart_head s) as [->|(c & t & -> & Hc)]; [done|].
  intros _. destruct (trimEnd_head c t Hc) as [t' ->]. by exists c, t'.
Qed.

(** X16: a name sent by the landing form is never refused: the form sends
    nothing for a blank input, and what it sends is trimmed and not empty, so
    that [join_lobby] answers with a broadcast and the directory holds, under
    a clean name that is not empty (it starts with a character that is not
    white space), a player attached to the joining socket. *)
Theorem landing_form_names_are_accepted (typed name sock : string) (st : State) :
  Client.handleSubmit typed = Some name ->
  name = JS.trim typed /\ JS.trim name = name /\
  (exists c t, cleanName name = String c t /\ JS.is_whitespace c = false) /\
  (join_lobby sock (JS.VString name) st).2
  = [ToAll (buildGameStatePayload (join_lobby sock (JS.VString name) st).1)] /\
  exists p,
    OMap.get (cleanName name) (players (join_lobby sock (JS.VString name) st).1) = Some p /\
    socketId p = Some sock /\ connected p = true.
Proof.
  unfold Client.handleSubmit.
  destruct (String.eqb_spec (JS.trim typed) "") as [?|Hsome]; [done|].
  intros [= <-].
  assert (JS.trim typed <> "") as Hraw by done.
  destruct (trim_nonempty_head typed Hsome) as (c & t & Htrim & Hc).
  split_and!.
  - done.
  - apply trim_idempotent.
  - unfold cleanName. rewrite trim_idempotent, Htrim. simpl. by eexists _, _.
  - rewrite join_lobby_accepted by done. apply broadcastImmediate_emits.
  - rewrite join_lobby_accepted, broadcastImmediate_players by done.
    destruct (OMap.get (cleanName (JS.trim typed)) (players st)) as [p|] eqn:Hget;
      cbn [players set_players].
    + exists (reattach sock p). by rewrite get_update, Hget.
    + eexists. by rewrite get_set.
Qed.

(** ** The distribution chart *)

Lemma yByX_absent (results : list RoundResult) (i : Z) (m : gmap Z Q) :
  Forall (fun r => r_x r <> i) results ->
  foldl (fun m r => <[r_x r := r_Y r]> m) m results !! i = m !! i.
Proof.
  intros Hnone. revert m. induction Hnone as [|r rs Hr _ IH]; intros m; [done|].
  simpl. rewrite IH. by rewrite lookup_insert_ne.
Qed.

Lemma yByX_present (results : list RoundResult) (r : RoundResult) :
  same_sword_same_Y results -> r ∈ results ->
  Client.yByX results !! r_x r = Some (r_Y r).
Proof.
  unfold Client.yByX. induction results as [|r0 rs IH] using rev_ind;
    intros Hsame Hr; [by apply elem_of_nil in Hr|].
  rewrite foldl_snoc. destruct (decide (r_x r0 = r_x r)) as [Hx|Hx].
  - rewrite Hx, lookup_insert_eq. f_equal. apply Hsame; [|done|done].
    apply elem_of_app. right. apply list_elem_of_here.
  - rewrite lookup_insert_ne by done. apply IH.
    + intros r1 r2 Hr1 Hr2. apply Hsame; apply elem_of_app; by left.
    + apply elem_of_app in Hr as [?|Hr]; [done|].
      apply list_elem_of_singleton in Hr. by subst.
Qed.

Lemma swords_1_to_10 : seqZ 1 10 = [1; 2; 3; 4; 5; 6; 7; 8; 9; 10].
Proof. reflexivity. Qed.

Lemma counts_add_up (results : list RoundResult) :
  Forall (fun r => 1 <= r_x r <= 10) results ->
  sum_list ((fun i => length (filter (fun r => r_x r = i) results)) <$> seqZ 1 10)
  = length results.
Proof.
  rewrite swords_1_to_10. induction 1 as [|r rs Hr _ IH]; [done|].
  cbn [fmap list_fmap sum_list sum_list_with] in *. unfold id in *.
  rewrite !filter_cons.
  assert (r_x r = 1 \/ r_x r = 2 \/ r_x r = 3 \/ r_x r = 4 \/ r_x r = 5 \/
          r_x r = 6 \/ r_x r = 7 \/ r_x r = 8 \/ r_x r = 9 \/ r_x r = 10) as Hcases by lia.
  decompose [or] Hcases;
    match goal with H : r_x r = _ |- _ => rewrite H end; simpl; lia.
Qed.

(** X17: the chart drawn from a payload agrees with its results: when every
    result has a sword between 1 and 10 and results with the same sword have
    the same [Y] (both hold of what the server sends), the ten bars are those
    of the swords 1 to 10 in order, their counts add up to the number of
    results, the bar of a result's sword counts that result and shows its
    [Y] rounded, and a bar that counts nothing shows 0. *)
Theorem distribution_matches_results (results : list RoundResult) :
  Forall (fun r => 1 <= r_x r <= 10) results -> same_sword_same_Y results ->
  let bars := Client.distribution results in
  Client.sword <$> bars = [1; 2; 3; 4; 5; 6; 7; 8; 9; 10] /\
  sum_list (Client.count <$> bars) = length results /\
  (forall r, r ∈ results ->
     exists bar, bars !! Z.to_nat (r_x r - 1) = Some bar /\
       Client.sword bar = r_x r /\ (1 <= Client.count bar)%nat /\
       Client.percentage bar = JS.round2 (r_Y r)) /\
  (forall bar, bar ∈ bars -> Client.count bar = O ->
     Client.percentage bar = JS.round2 0).
Proof.
  intros Hrange Hsame bars. subst bars. unfold Client.distribution. split_and!.
  - rewrite <- list_fmap_compose. rewrite <- swords_1_to_10.
    rewrite <- (list_fmap_id (seqZ 1 10)) at 2. by apply list_fmap_ext.
  - rewrite <- list_fmap_compose. by apply counts_add_up.
  - intros r Hr. rewrite Forall_forall in Hrange. pose proof (Hrange r Hr) as Hx.
    eexists. rewrite list_lookup_fmap, lookup_seqZ_lt by lia. split; [done|].
    replace (1 + Z.of_nat (Z.to_nat (r_x r - 1))) with (r_x r) by lia.
    cbn [Client.sword Client.count Client.percentage]. split_and!; [done| |].
    + assert (r ∈ filter (fun r' : RoundResult => r_x r' = r_x r) results) as Hin
        by (by apply list_elem_of_filter).
      destruct (filter _ results); [by apply elem_of_nil in Hin|simpl; lia].
    + by rewrite yByX_present.
  - intros bar (i & -> & Hi)%list_elem_of_fmap. cbn [Client.count Client.percentage].
    intros Hzero%length_zero_iff_nil.
    unfold Client.yByX. rewrite yByX_absent, lookup_empty; [done|].
    apply Forall_forall. intros r Hr Hx.
    assert (r ∈ filter (fun r' : RoundResult => r_x r' = i) results) as Hin
      by (by apply list_elem_of_filter).
    rewrite Hzero in Hin. by apply elem_of_nil in Hin.
Qed.

(** ** Rounding to two decimals *)





(** ** The count-up animation *)

Lemma eased_bounds (p : Q) :
  (0 <= p)%Q -> (p <= 1)%Q ->
  (0 <= 1 - (1 - p) ^ 3)%Q /\ (1 - (1 - p) ^ 3 <= 1)%Q.
Proof.
  intros Hp0 Hp1. assert (0 <= 1 - p)%Q as Hu0 by lra. assert (1 - p <= 1)%Q as Hu1 by lra.
  generalize dependent (1 - p)%Q. intros u Hu0 Hu1.
  assert (u ^ 3 == u * u * u)%Q as -> by (simpl; ring).
  assert (0 <= u * u)%Q as Hsq0 by (by apply Qmult_le_0_compat).
  assert (0 <= (1 - u) * u)%Q as Hsq1 by (apply Qmult_le_0_compat; lra).
  assert (0 <= u * u * u)%Q as Hcube0 by (by apply Qmult_le_0_compat).
  assert (0 <= (1 - u * u) * u)%Q as Hcube1 by (apply Qmult_le_0_compat; lra).
  split; lra.
Qed.

Lemma progress_bounds (durationMs elapsed : Q) :
  (0 < durationMs)%Q -> (0 <= elapsed)%Q ->
  (0 <= Qmin (elapsed / durationMs) 1)%Q /\ (Qmin (elapsed / durationMs) 1 <= 1)%Q /\
  (durationMs <= elapsed -> Qmin (elapsed / durationMs) 1 == 1)%Q /\
  (elapsed < durationMs -> Qmin (elapsed / durationMs) 1 < 1)%Q.
Proof.
  intros Hd He.
  assert (0 <= elapsed / durationMs)%Q as Hratio0
    by (apply Qle_shift_div_l; [done|lra]).
  split_and!.
  - apply Q.min_glb; [done|lra].
  - apply Q.le_min_r.
  - intros Hdone. apply Q.min_r. apply Qle_shift_div_l; [done|lra].
  - intros Hrunning. eapply Qle_lt_trans; [apply Q.le_min_l|].
    apply Qlt_shift_div_r; [done|lra].
Qed.

(** X19: the animation runs for its duration and its easing is clamped: for
    a positive duration and a frame at or after the first one, [progress] and
    [eased] lie between 0 and 1; [eased] is 0 at the first frame; another
    frame is requested exactly when less than the duration has elapsed; and
    from then on [eased] is 1. *)
Theorem countUp_runs_for_the_duration (durationMs elapsed : Q) :
  (0 < durationMs)%Q -> (0 <= elapsed)%Q ->
  (0 <= Client.progress durationMs elapsed)%Q /\
  (Client.progress durationMs elapsed <= 1)%Q /\
  (0 <= Client.eased durationMs elapsed)%Q /\
  (Client.eased durationMs elapsed <= 1)%Q /\
  (Client.eased durationMs 0 == 0)%Q /\
  (Client.countUp_running durationMs elapsed = true <-> (elapsed < durationMs)%Q) /\
  ((durationMs <= elapsed)%Q -> (Client.eased durationMs elapsed == 1)%Q).
Proof.
  intros Hd He.
  destruct (progress_bounds durationMs elapsed Hd He) as (Hp0 & Hp1 & Hdone & Hrunning).
  destruct (eased_bounds _ Hp0 Hp1) as [He0 He1].
  unfold Client.countUp_running, Client.eased, Client.progress. split_and!; try done.
  - assert (0 / durationMs == 0)%Q as Hzero by (unfold Qdiv; ring).
    rewrite Hzero, Q.min_l by lra. simpl. ring.
  - split.
    + intros Hrun. apply negb_true_iff in Hrun.
      destruct (Qlt_le_dec elapsed durationMs) as [Hless|Hover]; [done|].
      specialize (Hdone Hover).
      assert (Qle_bool 1 (Qmin (elapsed / durationMs) 1) = true) as Hle
        by (apply Qle_bool_iff; lra).
      congruence.
    + intros Hless. apply negb_true_iff. destruct (Qle_bool _ _) eqn:Hle; [|done].
      apply Qle_bool_iff in Hle. specialize (Hrunning Hless). lra.
  - intros Hover. rewrite (Hdone Hover). simpl. ring.
Qed.

(** * The further properties on the scenarios *)

Lemma st_closing_reachable : reachable secret st_closing.
Proof. apply run_reachable, reachable_init. Qed.

Lemma st_resolved_reachable : reachable secret st_resolved.
Proof. apply reachable_step, st_closing_reachable. Qed.

(** X1 on Carol joining the open round *)
Lemma broadcast_is_current_witness :
  let r := handle secret (EJoin "s3" (JS.VString "Carol")) st_open in
  ToAll (buildGameStatePayload r.1) ∈ r.2 /\
  broadcastTimer r.1 = false /\ r.2 = [ToAll (buildGameStatePayload r.1)].
Proof.
  intros r.
  assert (ToAll (buildGameStatePayload r.1) ∈ r.2) as Hin by apply list_elem_of_here.
  split; [exact Hin|].
  exact (proj2 (broadcast_is_current secret _ st_open _ Hin)).
Defined.

(** X3 on a submission from a socket that never joined *)
Lemma replies_go_to_the_caller_witness :
  let e := ESubmit "s9" (JS.VOther "5") (JS.VOther "50") in
  ToSocket "s9" (error_message "You must join the lobby first.") ∈ (handle secret e st_open).2 /\
  event_socket e = Some "s9" /\
  handle secret e st_open
  = (st_open, [ToSocket "s9" (error_message "You must join the lobby first.")]).
Proof.
  intros e.
  assert (ToSocket "s9" (error_message "You must join the lobby first.")
            ∈ (handle secret e st_open).2) as Hin by apply list_elem_of_here.
  split; [exact Hin|].
  destruct (replies_go_to_the_caller secret e st_open _ _ Hin) as [Hsock Herror].
  split; [exact Hsock|]. exact (Herror _ eq_refl).
Defined.

(** X4 on the submissions of Alice and Bob in the open round *)
Lemma submissions_are_coalesced_witness :
  let es := [ESubmit "s1" (JS.VOther "5") (JS.VOther "60");
             ESubmit "s2" (JS.VOther "8") (JS.VOther "30")] in
  forallb is_submit es = true /\ broadcastTimer st_open = false /\
  broadcasts (run_trace secret es st_open).2 = [] /\
  broadcasts (run_trace secret (es ++ [ETimer]) st_open).2
  = [buildGameStatePayload (run_trace secret (es ++ [ETimer]) st_open).1].
Proof.
  intros es.
  assert (forallb is_submit es = true) as Hsubmits by reflexivity.
  assert (broadcastTimer st_open = false) as Hidle by (vm_compute; reflexivity).
  destruct (submissions_are_coalesced secret es st_open Hsubmits Hidle)
    as (Hquiet & Hone & _).
  split_and!; [exact Hsubmits|exact Hidle|exact Hquiet|].
  assert (existsb is_ack (run_trace secret es st_open).2 = true) as Hack
    by (vm_compute; reflexivity).
  rewrite Hack in Hone. exact Hone.
Defined.

(** X5 on the resolved round of 5, 5 and 8 *)
Lemma reachable_round_and_results_witness :
  1 <= currentRound st_resolved <= 3 /\
  (gameState st_resolved = final_standings -> currentRound st_resolved = 3).
Proof.
  destruct (reachable_round_and_results secret st_resolved st_resolved_reachable)
    as (Hround & _ & Hfinal & _).
  exact (conj Hround Hfinal).
Defined.

(** X6 on the same round *)
Lemma reachable_values_in_range_witness :
  Forall (fun r => 1 <= r_x r <= 10 /\ (0 <= r_z r)%Q /\ (r_z r <= 100)%Q)
    (lastRoundResults st_resolved).
Proof.
  apply Forall_forall.
  exact (proj2 (reachable_values_in_range secret st_resolved st_resolved_reachable)).
Defined.

Lemma st_closing_in_range : Forall pending_in_range (players st_closing).
Proof.
  by destruct (reachable_game_ok secret st_closing st_closing_reachable)
    as (_ & _ & _ & _ & Hpending & _).
Qed.

(** X7 on the same round *)
Lemma round_scores_are_bounded_witness :
  Forall pending_in_range (players st_closing) /\
  Forall (fun r => (- (10) <= r_roundScore r)%Q /\ (r_roundScore r < 10)%Q)
    (lastRoundResults (resolveRound st_closing)).
Proof.
  split; [exact st_closing_in_range|].
  apply Forall_forall. intros r Hr.
  destruct (round_scores_are_bounded st_closing r st_closing_in_range Hr)
    as (_ & _ & _ & _ & _ & _ & _ & Hlow & Hhigh).
  exact (conj Hlow Hhigh).
Defined.

(** X9 on Alice's submission in the open round *)
Lemma scores_change_only_by_resolving_witness :
  let e := ESubmit "s1" (JS.VOther "5") (JS.VOther "60") in
  gameState (handle secret e st_open).1 = round_input /\
  Forall (fun s => s ∈ scores st_open \/ s.2 = 0%Q) (scores (handle secret e st_open).1).
Proof.
  intros e.
  assert (gameState (handle secret e st_open).1 = round_input) as Hphase
    by (vm_compute; reflexivity).
  split; [exact Hphase|].
  apply Forall_forall. intros [name q] Hin.
  apply (scores_change_only_by_resolving secret e st_open name q); [|exact Hin].
  intros [_ Hresolved]. rewrite Hphase in Hresolved. discriminate.
Defined.

Lemma st_open_keys : NoDup (OMap.keys (players st_open)).
Proof.
  refine (bool_decide_unpack (NoDup (OMap.keys (players st_open))) _).
  vm_compute. exact I.
Defined.

(** X10 on Alice, who drops at time 5 and comes back on socket s7 *)
Lemma rejoin_restores_the_player_witness :
  let alice := new_player "s1" "Alice" in
  let st1 := (disconnect "s1" 5 st_open).1 in
  let st2 := (join_lobby "s7" (JS.VString "Alice") st1).1 in
  findPlayerBySocketId "s1" st_open = Some (O, ("Alice", alice)) /\
  cleanName "Alice" = "Alice" /\
  players st2 = <[O := ("Alice", reattach "s7" alice)]> (players st_open).
Proof.
  intros alice st1 st2.
  assert (findPlayerBySocketId "s1" st_open = Some (O, ("Alice", alice))) as Hfind
    by (vm_compute; reflexivity).
  split_and!; [exact Hfind|reflexivity|].
  refine (proj1 (proj2 (rejoin_restores_the_player "s1" "s7" "Alice" 5 st_open O "Alice"
                          alice st_open_keys Hfind _ _))); [discriminate|reflexivity].
Defined.

(** X11 on Alice, who comes back on socket s7 before socket s1 is closed *)
Lemma late_disconnect_is_harmless_witness :
  let st1 := (join_lobby "s7" (JS.VString "Alice") st_open).1 in
  OMap.get (cleanName "Alice") (players st_open) = Some (new_player "s1" "Alice") /\
  players (disconnect "s1" 5 st1).1 = players st1.
Proof.
  intros st1. split; [vm_compute; reflexivity|].
  refine (proj1 (late_disconnect_is_harmless "s1" "s7" "Alice" 5 st_open
                   (new_player "s1" "Alice") st_open_keys _ _ _ _));
    [vm_compute; reflexivity| |discriminate|discriminate].
  intros e He Hold. vm_compute in He.
  apply elem_of_cons in He as [->|He]; [reflexivity|].
  apply elem_of_cons in He as [->|He]; [discriminate|].
  by apply elem_of_nil in He.
Defined.

(** X12 on Dora, who joins the open round on socket s4 and submits *)
Lemma joined_socket_can_submit_witness :
  let st1 := (join_lobby "s4" (JS.VString "Dora") st_open).1 in
  gameState st_open = round_input /\
  (submit_choice "s4" (JS.VOther "7") (JS.VOther "42") st1).2
  = [ToSocket "s4" (submission_ack (currentRound st_open) 7 42)].
Proof.
  intros st1.
  assert (gameState st_open = round_input) as Hphase by (vm_compute; reflexivity).
  split; [exact Hphase|].
  refine (proj2 (joined_socket_can_submit "s4" "Dora" st_open _) _ _ 7 42%Q Hphase _ _).
  - discriminate.
  - split; [vm_compute; reflexivity|lia].
  - split; [vm_compute; reflexivity|]. split; vm_compute; discriminate.
Defined.

Lemma st_offline_keys : NoDup (OMap.keys (players st_offline)).
Proof.
  refine (bool_decide_unpack (NoDup (OMap.keys (players st_offline))) _).
  vm_compute. exact I.
Defined.

(** X14 on two sweeps after Alice went offline *)
Lemma second_sweep_is_idle_witness :
  650000 <= 700000 /\
  reaper 650000 (reaper 700000 st_offline).1 = ((reaper 700000 st_offline).1, []).
Proof.
  assert (650000 <= 700000) as Hle by lia.
  split; [exact Hle|].
  exact (second_sweep_is_idle 700000 650000 st_offline st_offline_keys Hle).
Defined.

(** X15 on the round of 5, 5 and 8 *)
Lemma results_are_consistent_witness :
  well_keyed (players st_closing) /\
  Forall (fun r => r_k r
                   = length (filter (fun r' => r_x r' = r_x r)
                               (lastRoundResults (resolveRound st_closing))))
    (lastRoundResults (resolveRound st_closing)).
Proof.
  split; [exact st_closing_well_keyed|]. apply Forall_forall.
  exact (proj1 (proj2 (results_are_consistent st_closing st_closing_well_keyed))).
Defined.

(** X16 on the name Eve typed with blanks around it *)
Lemma landing_form_names_are_accepted_witness :
  Client.handleSubmit "  Eve " = Some "Eve" /\
  (join_lobby "s5" (JS.VString "Eve") st_open).2
  = [ToAll (buildGameStatePayload (join_lobby "s5" (JS.VString "Eve") st_open).1)].
Proof.
  assert (Client.handleSubmit "  Eve " = Some "Eve") as Hsent by reflexivity.
  split; [exact Hsent|].
  exact (proj1 (proj2 (proj2 (proj2
           (landing_form_names_are_accepted "  Eve " "Eve" "s5" st_open Hsent))))).
Defined.

(** What the server sends satisfies the second hypothesis of X17 *)
Lemma server_results_same_Y (st : State) :
  same_sword_same_Y (rounded_result <$> lastRoundResults (resolveRound st)).
Proof.
  destruct (resolveRound_fields st) as (_ & _ & -> & _).
  intros r r' (r0 & -> & (s & -> & Hs)%list_elem_of_fmap)%list_elem_of_fmap
    (r0' & -> & (s' & -> & Hs')%list_elem_of_fmap)%list_elem_of_fmap.
  cbn [rounded_result score_of r_x r_Y]. by intros ->.
Qed.

(** X17 on the results of the round of 5, 5 and 8 as they are broadcast *)
Lemma distribution_matches_results_witness :
  let results := rounded_result <$> lastRoundResults (resolveRound st_closing) in
  Forall (fun r => 1 <= r_x r <= 10) results /\
  Client.count <$> Client.distribution results = [0; 0; 0; 0; 2; 0; 0; 1; 0; 0]%nat /\
  sum_list (Client.count <$> Client.distribution results) = length results.
Proof.
  intros results.
  assert (Forall (fun r => 1 <= r_x r <= 10) results) as Hrange.
  { vm_compute. repeat constructor; discriminate. }
  split_and!; [exact Hrange|vm_compute; reflexivity|].
  exact (proj1 (proj2 (distribution_matches_results results Hrange
                         (server_results_same_Y st_closing)))).
Defined.

(** X19 on an animation of 1500 ms, half way *)
Lemma countUp_runs_for_the_duration_witness :
  (0 < 1500)%Q /\ (0 <= 750)%Q /\
  (0 <= Client.eased 1500 750)%Q /\ (Client.eased 1500 750 <= 1)%Q /\
  Client.countUp_running 1500 750 = true.
Proof.
  assert (0 < 1500)%Q as Hd by reflexivity.
  assert (0 <= 750)%Q as He by discriminate.
  destruct (countUp_runs_for_the_duration 1500 750 Hd He)
    as (_ & _ & Hlow & Hhigh & _ & Hrun & _).
  assert (750 < 1500)%Q as Hless by reflexivity.
  exact (conj Hd (conj He (conj Hlow (conj Hhigh (proj2 Hrun Hless))))).
Defined.
